(** * LiteX event manager: litex/soc/interconnect/csr_eventmanager.py

    The Python module builds hardware descriptions: three kinds of event
    source (Pulse, Process, Level), and an [EventManager] that collects the
    sources held in its attributes, sorts them by creation id, builds the
    status / pending / enable registers and emits the logic that wires every
    source to its register bit, its clear line and the interrupt line.

    The development has two layers, as the program has:
    - the construction layer (what the Python code does when it runs):
      attribute assignment, reflection with [xdir], sorting, the loops of
      [do_finalize], the exceptions they can raise;
    - the hardware layer (what the emitted statements mean): a small FHDL
      with combinational and clocked statements and its cycle semantics. *)

From stdpp Require Import sorting gmap strings fin_maps pretty functions list.


(** ** Exceptions and the construction monad *)

(** The exceptions the construction code can raise.  [FinalizeError] is
    migen's error for a change made after finalization (the spec calls it
    AlreadyFinalized). *)
Inductive exn := FinalizeError | TypeError | UnboundLocalError | AttributeError.

Inductive result (A : Type) := Ok (a : A) | Raise (e : exn).
Arguments Ok {A} a.
Arguments Raise {A} e.

(** A Python method mutates [self] and either returns or raises; the state
    reached when it raises is kept, since the mutations done before the
    [raise] are not undone. *)
Definition M (S A : Type) : Type := S → result A * S.

Global Instance M_ret {S} : MRet (M S) := λ A a s, (Ok a, s).

Global Instance M_bind {S} : MBind (M S) := λ A B f c s,
  match c s with
  | (Ok a, s') => f a s'
  | (Raise e, s') => (Raise e, s')
  end.

Global Instance result_ret : MRet result := λ A a, Ok a.

Global Instance result_bind : MBind result := λ A B f r,
  match r with
  | Ok a => f a
  | Raise e => Raise e
  end.

Definition raise {S A} (e : exn) : M S A := λ s, (Raise e, s).
Definition gets {S A} (f : S → A) : M S A := λ s, (Ok (f s), s).
Definition modify {S} (f : S → S) : M S unit := λ s, (Ok tt, f s).
Definition lift {S A} (r : result A) : M S A := λ s, (r, s).

(** [for x in l: body(x)] *)
Fixpoint for_each {S A} (l : list A) (body : A → M S unit) : M S unit :=
  match l with
  | [] => mret tt
  | x :: l' => body x;; for_each l' body
  end.

(** [enumerate(l)] *)
Definition enumerate {A} (l : list A) : list (nat * A) := imap pair l.

(** [functools.reduce(f, l)] without an initial value: an empty sequence is
    a [TypeError], otherwise the fold runs from the left. *)
Definition reduce {A} (f : A → A → A) (l : list A) : result A :=
  match l with
  | [] => Raise TypeError
  | x :: l' => Ok (foldl f x l')
  end.

(** ** FHDL: the statements the Python code emits *)

Module FHDL.
Section fhdl.
Context {sig : Type} `{EqDecision sig}.

Inductive expr :=
| Const (b : bool)
| Sig (s : sig)
| Not (e : expr)
| And (e1 e2 : expr)
| Or (e1 e2 : expr).

(** [s.eq(e)] and [If(c, body...)] (no [Else] is used by this file). *)
#[warnings="-register-all"]
Inductive stmt :=
| Assign (s : sig) (e : expr)
| If (c : expr) (body : list stmt).

(** A module's own logic: [self.comb] and [self.sync]. *)
Record module := { comb : list stmt; sync : list stmt }.

Fixpoint eval (env : sig → bool) (e : expr) : bool :=
  match e with
  | Const b => b
  | Sig s => env s
  | Not e => negb (eval env e)
  | And e1 e2 => eval env e1 && eval env e2
  | Or e1 e2 => eval env e1 || eval env e2
  end.

(** One statement: expressions read [rd]; the assignment lands in [wr].
    Statements run in order, so a later assignment to the same signal
    overrides an earlier one. *)
Fixpoint exec (rd : sig → bool) (st : stmt) (wr : sig → bool) : sig → bool :=
  match st with
  | Assign s e => <[s := eval rd e]> wr
  | If c body => if eval rd c then foldl (λ w s, exec rd s w) wr body else wr
  end.

Definition exec_all (rd : sig → bool) (l : list stmt) (wr : sig → bool) : sig → bool :=
  foldl (λ w s, exec rd s w) wr l.

(** The signals a statement can assign. *)
Fixpoint targets (st : stmt) : list sig :=
  match st with
  | Assign s _ => [s]
  | If _ body => flat_map targets body
  end.

End fhdl.
Global Arguments expr : clear implicits.
Global Arguments stmt : clear implicits.
Global Arguments module : clear implicits.
End FHDL.

Import FHDL.

(** ** Event sources *)

(** The four signals of [_EventSource.__init__], and the [old_trigger]
    register that [EventSourceProcess] adds. *)
Inductive src_signal := status | pending | trigger | clear | old_trigger.

Global Instance src_signal_eq_dec : EqDecision src_signal.
Proof. solve_decision. Defined.

(** class EventSourcePulse:
      self.comb += self.status.eq(0)
      self.sync += [If(self.clear, self.pending.eq(0)),
                    If(self.trigger, self.pending.eq(1))] *)
Definition EventSourcePulse : module src_signal :=
  {| comb := [Assign status (Const false)];
     sync := [If (Sig clear) [Assign pending (Const false)];
              If (Sig trigger) [Assign pending (Const true)]] |}.

(** class EventSourceProcess:
      self.comb += self.status.eq(self.trigger)
      self.sync += [If(self.clear, self.pending.eq(0)),
                    old_trigger.eq(self.trigger),
                    If(~self.trigger & old_trigger, self.pending.eq(1))] *)
Definition EventSourceProcess : module src_signal :=
  {| comb := [Assign status (Sig trigger)];
     sync := [If (Sig clear) [Assign pending (Const false)];
              Assign old_trigger (Sig trigger);
              If (And (Not (Sig trigger)) (Sig old_trigger)) [Assign pending (Const true)]] |}.

(** class EventSourceLevel:
      self.comb += [self.status.eq(self.trigger),
                    self.pending.eq(self.trigger)] *)
Definition EventSourceLevel : module src_signal :=
  {| comb := [Assign status (Sig trigger); Assign pending (Sig trigger)];
     sync := [] |}.

Inductive variant := Pulse | Process | Level.

Global Instance variant_eq_dec : EqDecision variant.
Proof. solve_decision. Defined.

Definition logic (k : variant) : module src_signal :=
  match k with
  | Pulse => EventSourcePulse
  | Process => EventSourceProcess
  | Level => EventSourceLevel
  end.

(** *** Cycle semantics of one source *)

(** The clocked signals of a source; every [Signal()] resets to 0. *)
Record src_state := { pending_reg : bool; old_trigger_reg : bool }.

Definition src_reset : src_state := {| pending_reg := false; old_trigger_reg := false |}.

(** The values known before the combinational logic runs: registers hold
    their state, [trigger] and [clear] are driven from outside, and a signal
    nothing drives sits at its reset value. *)
Definition src_base (st : src_state) (trig clr : bool) : src_signal → bool :=
  λ s, match s with
       | pending => pending_reg st
       | old_trigger => old_trigger_reg st
       | trigger => trig
       | clear => clr
       | status => false
       end.

(** The settled signals of the current cycle.  The combinational statements
    of the three sources read inputs only, so one pass settles them. *)
Definition src_outputs (md : module src_signal) (st : src_state) (trig clr : bool)
  : src_signal → bool :=
  exec_all (src_base st trig clr) (comb md) (src_base st trig clr).

(** The clock edge: every [sync] statement reads the settled values of the
    current cycle, and the assignments become the registers' next values. *)
Definition src_tick (md : module src_signal) (st : src_state) (trig clr : bool)
  : src_state :=
  let now := src_outputs md st trig clr in
  let nxt := exec_all now (sync md) (src_base st trig clr) in
  {| pending_reg := nxt pending; old_trigger_reg := nxt old_trigger |}.

(** The state at the start of cycle [t], from reset, under the input stream
    [inp] (cycle ↦ (trigger, clear)). *)
Fixpoint src_run (md : module src_signal) (inp : nat → bool * bool) (t : nat) : src_state :=
  match t with
  | 0 => src_reset
  | S t' => src_tick md (src_run md inp t') (inp t').1 (inp t').2
  end.

(** The value of signal [s] during cycle [t]. *)
Definition src_at (md : module src_signal) (inp : nat → bool * bool) (t : nat)
  (s : src_signal) : bool :=
  src_outputs md (src_run md inp t) (inp t).1 (inp t).2 s.

(** *** Source objects *)

(** An [_EventSource] object as the manager sees it: its creation id (DUID),
    its class, and the [name] and [description] attributes. *)
Record EventSource := {
  duid : Z;
  kind : variant;
  name : option string;
  description : option string
}.

Global Instance EventSource_eq_dec : EqDecision EventSource.
Proof. solve_decision. Defined.

(** migen's [DUID.__init__]: take the class counter, then increment it. *)
Definition DUID_init (next_uid : Z) : Z * Z := (next_uid, (next_uid + 1)%Z).

(** Every migen value is a DUID too, and takes a creation id when it is
    made: a [Constant] (an integer given to [eq] is wrapped into one) and an
    operator node ([~a], [a & b]) take one id, a [Signal()] takes two, its
    own and that of the [Constant] of its reset value.  These objects are
    named by the source they belong to, so only the counter is kept. *)
Definition Constant_init (next_uid : Z) : Z := (DUID_init next_uid).2.
Definition Operator_init (next_uid : Z) : Z := (DUID_init next_uid).2.
Definition Signal_init (next_uid : Z) : Z := Constant_init (DUID_init next_uid).2.

(** migen's [get_obj_var_name(override)]: a non-empty [override] is returned;
    otherwise the name is whatever the tracer reads off the calling frame
    ([traced], [None] when it finds no assignment target). *)
Definition get_obj_var_name (override traced : option string) : option string :=
  match override with
  | Some s => if decide (s = EmptyString) then traced else Some s
  | None => traced
  end.

(** def __init__(self, name=None, description=None):
        DUID.__init__(self)
        self.status = Signal()
        self.pending = Signal()
        self.trigger = Signal()
        self.clear = Signal()
        self.name = get_obj_var_name(name)
        self.description = description *)
Definition EventSource_init (k : variant) (nm descr traced : option string)
  (next_uid : Z) : EventSource * Z :=
  let '(d, next_uid) := DUID_init next_uid in
  let next_uid := Signal_init next_uid in
  let next_uid := Signal_init next_uid in
  let next_uid := Signal_init next_uid in
  let next_uid := Signal_init next_uid in
  ({| duid := d; kind := k; name := get_obj_var_name nm traced; description := descr |},
   next_uid).

(** The values made by the statements of the three classes, after
    [_EventSource.__init__]:
    - Pulse: the constants of [status.eq(0)], [pending.eq(0)], [pending.eq(1)];
    - Process: [old_trigger = Signal()], the constant of [pending.eq(0)],
      the nodes [~self.trigger] and [... & old_trigger], the constant of
      [pending.eq(1)];
    - Level: none, its statements connect signals that exist. *)
Definition body_init (k : variant) (next_uid : Z) : Z :=
  match k with
  | Pulse => Constant_init (Constant_init (Constant_init next_uid))
  | Process =>
      Constant_init (Operator_init (Operator_init (Constant_init (Signal_init next_uid))))
  | Level => next_uid
  end.

(** [EventSourcePulse(name, description)], [EventSourceProcess(...)],
    [EventSourceLevel(...)]: the base initialiser, then the statements. *)
Definition EventSource_new (k : variant) (nm descr traced : option string)
  (next_uid : Z) : EventSource * Z :=
  let '(s, next_uid) := EventSource_init k nm descr traced next_uid in
  (s, body_init k next_uid).

(** ** Registers *)

(** Modelled from the spec: a register field of the CSR facility, with the
    arguments [do_finalize] gives to [CSRField(name, size=1, offset=None,
    description=...)]. *)
Record CSRField := {
  f_name : string;
  f_size : nat;
  f_offset : option nat;
  f_description : string
}.

Global Instance CSRField_eq_dec : EqDecision CSRField.
Proof. solve_decision. Defined.

(** Modelled from the spec: a register of the CSR facility, its width, its
    description and its fields once packed. *)
Record CSR := { c_size : nat; c_description : string; c_fields : list CSRField }.

Global Instance CSR_eq_dec : EqDecision CSR.
Proof. solve_decision. Defined.

(** Modelled from the spec: the CSR facility (litex/soc/interconnect/csr.py)
    is not part of the file under study; the spec describes it as named,
    sized, offsettable fields packed into a register.  A field without an
    offset goes right after the previous one, a field with an offset goes
    where it says. *)
Fixpoint pack (next : nat) (fields : list CSRField) : list CSRField :=
  match fields with
  | [] => []
  | f :: fs =>
      let off := default next (f_offset f) in
      {| f_name := f_name f; f_size := f_size f; f_offset := Some off;
         f_description := f_description f |} :: pack (off + f_size f) fs
  end.

(** Modelled from the spec: [CSRStatus(n, description=desc, fields=fields)],
    an [n]-bit register whose value is wired from its fields. *)
Definition CSRStatus (n : nat) (desc : string) (fields : list CSRField) : CSR :=
  {| c_size := n; c_description := desc; c_fields := pack 0 fields |}.

(** Modelled from the spec: [CSRStorage(n, description=desc, fields=fields)],
    an [n]-bit software-written storage register. *)
Definition CSRStorage (n : nat) (desc : string) (fields : list CSRField) : CSR :=
  {| c_size := n; c_description := desc; c_fields := pack 0 fields |}.

(** Modelled from the spec: the named fields of a register, looked up by
    name.  The spec leaves a name shared by two fields to the caller; here
    the fields are attributes set in order, so the later one is found. *)
Fixpoint lookup_field (nm : string) (fields : list CSRField) : option CSRField :=
  match fields with
  | [] => None
  | f :: fs =>
      match lookup_field nm fs with
      | Some g => Some g
      | None => if decide (f_name f = nm) then Some f else None
      end
  end.

(** [getattr(reg.fields, name)]: Python's [getattr] raises [TypeError] when
    the attribute name is not a string ([None] here), and [AttributeError]
    when there is no such attribute. *)
Definition getattr_fields (c : CSR) (nm : option string) : result CSRField :=
  match nm with
  | None => Raise TypeError
  | Some nm =>
      match lookup_field nm (c_fields c) with
      | Some f => Ok f
      | None => Raise AttributeError
      end
  end.

(** The bit of a packed field. *)
Definition offset (f : CSRField) : nat := default 0 (f_offset f).

(** ** The signals of a manager's logic *)

(** [self.status], [self.pending], [self.enable] *)
Inductive reg := r_status | r_pending | r_enable.

Global Instance reg_eq_dec : EqDecision reg.
Proof. solve_decision. Defined.

Inductive signal :=
| src (d : Z) (s : src_signal)      (* signal [s] of the source whose duid is [d] *)
| field (r : reg) (off : nat)       (* the CSRField object of [r] at bit [off] *)
| csr_status (r : reg) (i : nat)    (* [r.status[i]] *)
| csr_storage (r : reg) (i : nat)   (* [r.storage[i]] *)
| csr_re (r : reg)                  (* [r.re], the write strobe *)
| csr_r (r : reg) (i : nat)         (* [r.r[i]], the data being written *)
| irq.                              (* [self.irq] *)

Global Instance signal_eq_dec : EqDecision signal.
Proof. solve_decision. Defined.

(** ** The manager object *)

(** What an attribute of a manager can hold:
    - an event source;
    - a [Signal()] of the manager's own (the logic calls the one held by the
      attribute [irq] [irq]);
    - a register;
    - a boolean: migen keeps the [finalized] flag in the attribute of that
      name;
    - a module proxy: migen answers [self.comb] and [self.submodules] with a
      proxy object for the list behind each, and the augmented assignments
      [self.comb += ...] and [self.submodules += ...] end by storing the
      proxy under the name it was read from. *)
Inductive value :=
| VSource (s : EventSource)
| VSignal
| VCSR (c : CSR)
| VBool (b : bool)
| VProxy.

Global Instance value_eq_dec : EqDecision value.
Proof. solve_decision. Defined.

(** [attrs] is the instance dictionary: every attribute this file reads or
    writes ([irq], [status], [pending], [enable], [finalized], [comb],
    [submodules], and the attributes that hold the sources) lives in it.
    The two lists behind migen's proxies, the submodules and the
    combinational statements, are held by migen under private names that
    this file never uses; they are the two other fields. *)
Record EventManager := {
  attrs : gmap string value;
  submodules : list EventSource;
  fragment_comb : list (stmt signal)
}.

(** [object.__setattr__(self, k, v)] *)
Definition set_attr (k : string) (v : value) (self : EventManager) : EventManager :=
  {| attrs := <[k := v]> (attrs self);
     submodules := submodules self; fragment_comb := fragment_comb self |}.

(** The [finalized] flag is set: the attribute holds [True]. *)
Definition finalized (self : EventManager) : bool :=
  bool_decide (attrs self !! "finalized" = Some (VBool true)).


(** The proxies' [__iadd__]: the list behind the proxy grows. *)
Definition add_submodule (s : EventSource) (self : EventManager) : EventManager :=
  {| attrs := attrs self;
     submodules := submodules self ++ [s]; fragment_comb := fragment_comb self |}.

Definition add_comb (l : list (stmt signal)) (self : EventManager) : EventManager :=
  {| attrs := attrs self;
     submodules := submodules self; fragment_comb := fragment_comb self ++ l |}.

(** Reading [self.finalized]: the instance attribute when there is one;
    otherwise migen's [Module.__getattr__] runs [self.finalized = False]
    and answers [False]. *)
Definition get_finalized : M EventManager value := λ self,
  match attrs self !! "finalized" with
  | Some v => (Ok v, self)
  | None => (Ok (VBool false), set_attr "finalized" (VBool false) self)
  end.

(** The truth value of [if v:].  A boolean is itself; a source, a register
    and a proxy are objects without [__bool__] or [__len__], hence true;
    migen refuses to convert a signal ([TypeError]). *)
Definition truth (v : value) : result bool :=
  match v with
  | VBool b => Ok b
  | VSignal => Raise TypeError
  | VSource _ | VCSR _ | VProxy => Ok true
  end.

(** [self.submodules += s].  [self.submodules] is the instance attribute
    when there is one, otherwise a fresh proxy from [Module.__getattr__].
    On a proxy, [__iadd__] appends [s] to the submodule list, and the proxy
    is then stored as the attribute [submodules]; any other value has no
    [+] with a source ([TypeError]). *)
Definition iadd_submodules (s : EventSource) : M EventManager unit := λ self,
  match attrs self !! "submodules" with
  | None | Some VProxy => (Ok tt, set_attr "submodules" VProxy (add_submodule s self))
  | Some _ => (Raise TypeError, self)
  end.

(** def __setattr__(self, name, value):
        object.__setattr__(self, name, value)
        if isinstance(value, _EventSource):
            if self.finalized:
                raise FinalizeError
            self.submodules += value
    The attribute is stored first, so [self.finalized] and
    [self.submodules] are read from an object that holds it already. *)
Definition setattr (nm : string) (v : value) : M EventManager unit :=
  modify (set_attr nm v);;
  match v with
  | VSource s =>
      get_finalized ≫= λ fin : value,
      lift (truth fin) ≫= λ b : bool,
        if b then raise FinalizeError else iadd_submodules s
  | _ => mret tt
  end.

(** def __init__(self):
        self.irq = Signal() *)
Definition EventManager_init : EventManager :=
  (setattr "irq" VSignal
     {| attrs := ∅; submodules := []; fragment_comb := [] |}).2.

(** [dir(self)]: the attribute names, in alphabetical order. *)
Definition dir (self : EventManager) : list string :=
  merge_sort String.le (map_to_list (attrs self)).*1.

(** The test of migen's [xdir]: [attr[:2] != "__" and attr[-2:] != "__"]. *)
Definition xdir_keeps (attr : string) : bool :=
  bool_decide (String.substring 0 2 attr ≠ "__")
  && bool_decide (String.substring (String.length attr - 2) 2 attr ≠ "__").

(** migen's [xdir(self, True)]: every kept attribute name with its value. *)
Definition xdir (self : EventManager) : list (string * value) :=
  omap (λ attr, if xdir_keeps attr then pair attr <$> attrs self !! attr else None)
       (dir self).

Definition as_source (v : value) : option EventSource :=
  match v with VSource s => Some s | _ => None end.

(** sources_u = [v for k, v in xdir(self, True) if isinstance(v, _EventSource)] *)
Definition sources_u (self : EventManager) : list EventSource :=
  omap (λ kv, as_source kv.2) (xdir self).

(** [sorted(l, key=...)]: Python's sort is stable, so elements with equal
    keys keep their order; insertion from the right does the same. *)
Fixpoint insert_sorted {A} (key : A → Z) (x : A) (l : list A) : list A :=
  match l with
  | [] => [x]
  | y :: l' =>
      if decide (key x ≤ key y)%Z then x :: y :: l'
      else y :: insert_sorted key x l'
  end.

Definition sorted {A} (key : A → Z) (l : list A) : list A :=
  foldr (insert_sorted key) [] l.

(** ** Finalization *)

(** [str(source.name)] *)
Definition str (nm : option string) : string := default "None" nm.

(** The nested function [source_description] of [do_finalize].  Every source
    is an instance of one of the three classes, so the last [else] of the
    [isinstance] chain cannot be taken. *)
Definition source_description (s : EventSource) : string :=
  let base_text :=
    match name s with
    | Some nm => "`1` if a `" +:+ nm +:+ "` event occurred. "
    | None => "`1` if a this particular event occurred. "
    end in
  match description s with
  | Some d => d
  | None =>
      match kind s with
      | Level => base_text +:+ "This Event is **level triggered** when the signal is **high**."
      | Pulse => base_text +:+ "This Event is triggered on a **rising** edge."
      | Process => base_text +:+ "This Event is triggered on a **falling** edge."
      end
  end.

(** The three annotation loops share one shape:
      fields = []
      for i, source in enumerate(sources):
          desc = ...
          fields.append(CSRField(...))
    [desc] stays unassigned when there is nothing to iterate over. *)
Definition annotate (desc_of : EventSource → string)
  (field_of : nat → EventSource → CSRField) (sources : list EventSource)
  : option string * list CSRField :=
  foldl (λ acc isrc, (Some (desc_of isrc.2), acc.2 ++ [field_of isrc.1 isrc.2]))
        (None, []) (enumerate sources).

(** Reading a local variable: [UnboundLocalError] if nothing assigned it. *)
Definition local {S A} (v : option A) : M S A :=
  match v with
  | Some a => mret a
  | None => raise UnboundLocalError
  end.

Definition status_desc (source : EventSource) : string :=
  match description source with
  | None => "This register contains the current raw level of the " +:+ str (name source)
            +:+ " event trigger.  Writes to this register have no effect."
  | Some d => d
  end.

Definition status_field (i : nat) (source : EventSource) : CSRField :=
  match name source with
  | Some nm =>
      {| f_name := nm; f_size := 1; f_offset := None;
         f_description := "Level of the `" +:+ nm +:+ "` event" |}
  | None =>
      {| f_name := "event" +:+ pretty i; f_size := 1; f_offset := None;
         f_description := "Level of the `event" +:+ pretty i +:+ "` event" |}
  end.

Definition pending_desc (source : EventSource) : string :=
  match description source with
  | None => "When a  " +:+ str (name source)
            +:+ " event occurs, the corresponding bit will be set in this register.  To clear the Event, set the corresponding bit in this register."
  | Some d => d
  end.

Definition pending_field (i : nat) (source : EventSource) : CSRField :=
  match name source with
  | Some nm =>
      {| f_name := nm; f_size := 1; f_offset := None;
         f_description := source_description source |}
  | None =>
      {| f_name := "event" +:+ pretty i; f_size := 1; f_offset := None;
         f_description := source_description source |}
  end.

Definition enable_desc (source : EventSource) : string :=
  match description source with
  | None => "This register enables the corresponding " +:+ str (name source)
            +:+ " events.  Write a `0` to this register to disable individual events."
  | Some d => d
  end.

Definition enable_field (i : nat) (source : EventSource) : CSRField :=
  match name source with
  | Some nm =>
      {| f_name := nm; f_size := 1; f_offset := Some i;
         f_description := "Write a `1` to enable the `" +:+ nm +:+ "` Event" |}
  | None =>
      {| f_name := "event" +:+ pretty i; f_size := 1; f_offset := Some i;
         f_description := "Write a `1` to enable the `" +:+ pretty i +:+ "` Event" |}
  end.

(** The list built by the body of the wiring loop:
      [getattr(self.status.fields, source.name).eq(source.status),
       getattr(self.pending.fields, source.name).eq(source.pending),
       If(self.pending.re & getattr(self.pending.fields, source.name),
          source.clear.eq(1))]
    [status_csr] and [pending_csr] are the registers just assigned to
    [self.status] and [self.pending]. *)
Definition wire_stmts (status_csr pending_csr : CSR) (isrc : nat * EventSource)
  : result (list (stmt signal)) :=
  let source := isrc.2 in
  f_status ← getattr_fields status_csr (name source);
  f_pending ← getattr_fields pending_csr (name source);
  f_clear ← getattr_fields pending_csr (name source);
  mret
    [Assign (field r_status (offset f_status)) (Sig (src (duid source) status));
     Assign (field r_pending (offset f_pending)) (Sig (src (duid source) pending));
     If (And (Sig (csr_re r_pending)) (Sig (field r_pending (offset f_clear))))
        [Assign (src (duid source) clear) (Const true)]].

(** [self.comb += l].  [self.comb] is the instance attribute when there is
    one, otherwise a fresh proxy from [Module.__getattr__].  On a proxy,
    [__iadd__] appends [l] to the combinational statements, and the proxy is
    then stored as the attribute [comb]; any other value has no [+] with a
    list of statements ([TypeError]). *)
Definition iadd_comb (l : list (stmt signal)) : M EventManager unit := λ self,
  match attrs self !! "comb" with
  | None | Some VProxy => (Ok tt, set_attr "comb" VProxy (add_comb l self))
  | Some _ => (Raise TypeError, self)
  end.

(** The body of the wiring loop, [self.comb += [...]]: reading [self.comb]
    changes nothing, the list is built (and may raise), then it is added. *)
Definition wire (status_csr pending_csr : CSR) (isrc : nat * EventSource)
  : M EventManager unit :=
  stmts ← lift (wire_stmts status_csr pending_csr isrc);
  iadd_comb stmts.

(** [self.irq.eq]: [AttributeError] when the manager has no attribute [irq]
    or when what it holds is not a signal (sources, registers, booleans and
    proxies have no [eq]). *)
Definition getattr_irq_eq : M EventManager (expr signal → stmt signal) := λ self,
  match attrs self !! "irq" with
  | Some VSignal => (Ok (Assign irq), self)
  | _ => (Raise AttributeError, self)
  end.

(** [self.pending.status[i] & self.enable.storage[i]] *)
Definition irq_term (i : nat) : expr signal :=
  And (Sig (csr_status r_pending i)) (Sig (csr_storage r_enable i)).

(** [EventManager.do_finalize] *)
Definition do_finalize : M EventManager unit :=
  collected ← gets sources_u;
  let sources := sorted duid collected in
  let n := length sources in
  (* annotate status *)
  let '(desc, fields) := annotate status_desc status_field sources in
  desc ← local desc;
  let status_csr := CSRStatus n desc fields in
  setattr "status" (VCSR status_csr);;
  (* annotate pending *)
  let '(desc, fields) := annotate pending_desc pending_field sources in
  desc ← local desc;
  let pending_csr := CSRStatus n desc fields in
  setattr "pending" (VCSR pending_csr);;
  (* annotate enable *)
  let '(desc, fields) := annotate enable_desc enable_field sources in
  desc ← local desc;
  setattr "enable" (VCSR (CSRStorage n desc fields));;
  for_each (enumerate sources) (wire status_csr pending_csr);;
  let irqs := irq_term <$> seq 0 n in
  irq_eq ← getattr_irq_eq;
  e ← lift (reduce Or irqs);
  iadd_comb [irq_eq e].


(** A run of attribute assignments [self.k = source]. *)
Definition attach_all (l : list (string * EventSource)) : M EventManager unit :=
  for_each l (λ kv, setattr kv.1 (VSource kv.2)).

(** ** The hardware a finalized manager describes *)

(** What drives the manager's logic from outside: each source's [status] and
    [pending] outputs, the write strobe and write data of the pending
    register, and the stored value of the enable register. *)
Record Inputs := {
  in_status : Z → bool;
  in_pending : Z → bool;
  in_re : bool;
  in_r : Z;
  in_storage : Z
}.

(** Every other signal starts from its reset value 0. *)
Definition base (i : Inputs) : signal → bool :=
  λ s, match s with
       | src d status => in_status i d
       | src d pending => in_pending i d
       | csr_re r_pending => in_re i
       | csr_r r_pending k => Z.testbit (in_r i) (Z.of_nat k)
       | csr_storage r_enable k => Z.testbit (in_storage i) (Z.of_nat k)
       | _ => false
       end.

(** Modelled from the spec: a status register's value is wired from its
    fields, bit [offset f] of [r.status] carrying the one-bit field [f]. *)
Definition CSRStatus_comb (r : reg) (c : CSR) : list (stmt signal) :=
  (λ f, Assign (csr_status r (offset f)) (Sig (field r (offset f)))) <$> c_fields c.

(** [self.status], [self.pending] or [self.enable] when it holds a register. *)
Definition csr_attr (self : EventManager) (nm : string) : option CSR :=
  match attrs self !! nm with
  | Some (VCSR c) => Some c
  | _ => None
  end.

(** All combinational statements of the finalized manager: those inside its
    two status registers and those [do_finalize] emitted. *)
Definition netlist (self : EventManager) : list (stmt signal) :=
  from_option (CSRStatus_comb r_status) [] (csr_attr self "status")
  ++ from_option (CSRStatus_comb r_pending) [] (csr_attr self "pending")
  ++ fragment_comb self.

(** One evaluation of all statements, reading [env]. *)
Definition comb_pass (self : EventManager) (i : Inputs) (env : signal → bool)
  : signal → bool :=
  exec_all env (netlist self) (base i).

(** The settled values of a cycle.  The logic is three levels deep (fields
    read the sources; register bits and clear lines read the fields; [irq]
    reads the register bits), so three passes settle it. *)
Definition settle (self : EventManager) (i : Inputs) : signal → bool :=
  Nat.iter 3 (comb_pass self i) (base i).

(** ** Bit positions *)

(** The rank of a source's creation id among the sources of [l]. *)
Definition rank (s : EventSource) (l : list EventSource) : nat :=
  length (filter (λ t, (duid t < duid s)%Z) l).

(** The bit a register gives to a source: the offset of the field that
    [getattr(reg.fields, source.name)] finds. *)
Definition bit_index (self : EventManager) (reg_name : string) (s : EventSource)
  : option nat :=
  match csr_attr self reg_name with
  | Some c =>
      match getattr_fields c (name s) with
      | Ok f => Some (offset f)
      | Raise _ => None
      end
  | None => None
  end.

(** ** Creating sources *)

(** Sources created one after the other, nothing else being created in
    between; the name is the one given, the tracer finding nothing. *)
Fixpoint create (specs : list (variant * option string * option string))
  (next_uid : Z) : list EventSource * Z :=
  match specs with
  | [] => ([], next_uid)
  | (k, nm, descr) :: rest =>
      let '(s, next_uid) := EventSource_new k nm descr None next_uid in
      let '(l, next_uid) := create rest next_uid in
      (s :: l, next_uid)
  end.

(** ** Vocabulary of the proofs *)

(** The order [sorted] sorts by. *)
Definition key_le {A} (key : A → Z) (x y : A) : Prop := (key x ≤ key y)%Z.

(** The name of the field that the annotation loops give source [s] at
    position [i]: its own name, or the positional name [eventI]. *)
Definition field_name (i : nat) (s : EventSource) : string :=
  default ("event" +:+ pretty i) (name s).

Definition named (s : EventSource) : Prop := is_Some (name s).

(** One-bit fields that either leave their offset open or ask for their own
    position; [pack] puts them at consecutive bits. *)
Definition unit_fields (k : nat) (fs : list CSRField) : Prop :=
  ∀ j g, fs !! j = Some g →
    f_size g = 1 ∧ (f_offset g = None ∨ f_offset g = Some (k + j)).

(** The three registers of a finalization over [sources], and the manager
    once they are assigned. *)
Definition finalize_regs (sources : list EventSource) (m : EventManager)
  : CSR * CSR * EventManager :=
  let n := length sources in
  let st := CSRStatus n (default EmptyString (status_desc <$> last sources))
                      (imap status_field sources) in
  let pd := CSRStatus n (default EmptyString (pending_desc <$> last sources))
                      (imap pending_field sources) in
  let en := CSRStorage n (default EmptyString (enable_desc <$> last sources))
                       (imap enable_field sources) in
  (st, pd,
   set_attr "enable" (VCSR en) (set_attr "pending" (VCSR pd)
     (set_attr "status" (VCSR st) m))).

(** What the wiring loop emits for the source with duid [d] when its fields
    sit at bit [i]. *)
Definition wire3 (i : nat) (d : Z) : list (stmt signal) :=
  [Assign (field r_status i) (Sig (src d status));
   Assign (field r_pending i) (Sig (src d pending));
   If (And (Sig (csr_re r_pending)) (Sig (field r_pending i)))
      [Assign (src d clear) (Const true)]].

Definition wires (l : list (nat * EventSource)) : list (stmt signal) :=
  flat_map (λ isrc, wire3 isrc.1 (duid isrc.2)) l.

(** The wiring loop as a function: its result and the statements it has
    appended when it stops. *)
Fixpoint wire_loop (st pd : CSR) (l : list (nat * EventSource))
  : result unit * list (stmt signal) :=
  match l with
  | [] => (Ok tt, [])
  | isrc :: l' =>
      match wire_stmts st pd isrc with
      | Ok stmts => ((wire_loop st pd l').1, stmts ++ (wire_loop st pd l').2)
      | Raise e => (Raise e, [])
      end
  end.

(** The wiring loop when [self.comb] does not answer with the proxy: the
    first [+=] raises [TypeError], unless building its list has raised
    before. *)
Definition wire_stuck (st pd : CSR) (l : list (nat * EventSource)) : result unit :=
  match l with
  | [] => Ok tt
  | isrc :: _ =>
      match wire_stmts st pd isrc with
      | Ok _ => Raise TypeError
      | Raise e => Raise e
      end
  end.

(** [self.comb += self.irq.eq(reduce(or_, irqs))] for [n ≥ 1] sources. *)
Definition irq_stmt (n : nat) : stmt signal :=
  Assign irq (foldl Or (irq_term 0) (irq_term <$> seq 1 (n - 1))).

(** What [do_finalize] does after the annotation loops, over at least one
    source: its result and the statements it has emitted by then.
    [comb_ok] says that [self.comb] answers with the proxy, [irq_ok] that
    [self.irq] holds a signal. *)
Definition outcome (comb_ok irq_ok : bool) (st pd : CSR) (sources : list EventSource)
  : result unit * list (stmt signal) :=
  if comb_ok then
    match (wire_loop st pd (enumerate sources)).1 with
    | Ok _ =>
        if irq_ok then
          (Ok tt, (wire_loop st pd (enumerate sources)).2 ++ [irq_stmt (length sources)])
        else (Raise AttributeError, (wire_loop st pd (enumerate sources)).2)
    | Raise e => (Raise e, (wire_loop st pd (enumerate sources)).2)
    end
  else (wire_stuck st pd (enumerate sources), []).

Definition csr_bits (r : reg) (n : nat) : list (stmt signal) :=
  (λ i, Assign (csr_status r i) (Sig (field r i))) <$> seq 0 n.

(** The whole logic of a manager finalized over [sources]. *)
Definition design (sources : list EventSource) : list (stmt signal) :=
  csr_bits r_status (length sources) ++ csr_bits r_pending (length sources)
  ++ wires (enumerate sources) ++ [irq_stmt (length sources)].

(** A finalization that succeeds, on a manager that has emitted no logic
    yet, whose collected sources are distinct objects (distinct creation
    ids) with distinct names (the naming contract of the caller). *)
Definition finalizes (m m' : EventManager) : Prop :=
  fragment_comb m = []
  ∧ NoDup (duid <$> sources_u m)
  ∧ NoDup (name <$> sources_u m)
  ∧ do_finalize m = (Ok tt, m').

(** [self.k] answers with migen's proxy: the attribute is not there, or it
    holds the proxy that an earlier [+=] stored. *)
Definition proxy_at (k : string) (m : EventManager) : Prop :=
  attrs m !! k = None ∨ attrs m !! k = Some VProxy.

Global Instance proxy_at_dec k m : Decision (proxy_at k m).
Proof. unfold proxy_at. apply _. Defined.

(** The manager after [self.comb += l] on the proxy. *)
Definition emit (l : list (stmt signal)) (m : EventManager) : EventManager :=
  set_attr "comb" VProxy (add_comb l m).

(** The manager after a wiring loop that got as far as the statements [l]:
    no [+=] has run when there are none. *)
Definition emit_opt (l : list (stmt signal)) (m : EventManager) : EventManager :=
  match l with
  | [] => m
  | _ => emit l m
  end.

(** An open manager: [self.finalized] reads as [False]. *)
Definition is_open (m : EventManager) : Prop :=
  attrs m !! "finalized" = None ∨ attrs m !! "finalized" = Some (VBool false).

Global Instance is_open_dec m : Decision (is_open m).
Proof. unfold is_open. apply _. Defined.

(** The manager after [self.nm = s] has attached the source [s]. *)
Definition attached (nm : string) (s : EventSource) (m : EventManager) : EventManager :=
  set_attr "submodules" VProxy
    (add_submodule s (set_attr "finalized" (VBool false) (set_attr nm (VSource s) m))).

(** What [sources_u] keeps of one attribute. *)
Definition collect (kv : string * value) : option EventSource :=
  if xdir_keeps kv.1 then as_source kv.2 else None.

(** The attribute dictionary after a run of attachments. *)
Definition attach_attrs (a : gmap string value) (l : list (string * EventSource))
  : gmap string value :=
  foldl (λ a kv, <[kv.1 := VSource kv.2]> a) a l.

(** The inputs with other write data. *)
Definition set_r (data : Z) (i : Inputs) : Inputs :=
  {| in_status := in_status i; in_pending := in_pending i; in_re := in_re i;
     in_r := data; in_storage := in_storage i |}.

(** ** Example designs *)

(** The scenario of the spec: a Pulse, a Level and a Process source created
    in this order and attached in another. *)
Definition uart_rx : EventSource :=
  {| duid := 0; kind := Pulse; name := Some "uart_rx"; description := None |}.
Definition dma_slot : EventSource :=
  {| duid := 1; kind := Level; name := Some "dma_slot"; description := None |}.
Definition dma_done : EventSource :=
  {| duid := 2; kind := Process; name := Some "dma_done"; description := None |}.

Definition example_open : EventManager :=
  (attach_all [("done", dma_done); ("rx", uart_rx); ("slot", dma_slot)]
     EventManager_init).2.
Definition example_final : EventManager := (do_finalize example_open).2.

(** A source the tracer found no name for. *)
Definition unnamed : EventSource :=
  {| duid := 0; kind := Pulse; name := None; description := None |}.
Definition unnamed_open : EventManager :=
  (attach_all [("ev", unnamed)] EventManager_init).2.

(** A manager whose attribute [irq] was given to a source. *)
Definition irq_taken : EventManager :=
  (attach_all [("irq", uart_rx)] EventManager_init).2.


(** A trigger in cycle 0 only, a clear in cycle 3 only. *)
Definition pulse_stream : nat → bool * bool :=
  λ t, (bool_decide (t = 0), bool_decide (t = 3)).

(** [dma_slot] pending, bits 1 and 2 enabled, no write. *)
Definition example_inputs : Inputs :=
  {| in_status := λ d, bool_decide (d = 1%Z);
     in_pending := λ d, bool_decide (d = 1%Z);
     in_re := false; in_r := 0; in_storage := 6 |}.

(** [uart_rx] pending, and a write of the value 0 to the pending register. *)
Definition write_all_zero : Inputs :=
  {| in_status := λ _, false; in_pending := λ d, bool_decide (d = 0%Z);
     in_re := true; in_r := 0; in_storage := 0 |}.

(** Nothing pending, and a write of the value 1 to the pending register. *)
Definition write_bit0_idle : Inputs :=
  {| in_status := λ _, false; in_pending := λ _, false;
     in_re := true; in_r := 1; in_storage := 0 |}.

(** ** SharedIRQ, and a source inside its manager *)

(** The signals of a [SharedIRQ]: the [irq] of the manager given at position
    [k], and its own [irq]. *)
Inductive shared_signal := ev_irq (k : nat) | shared_irq.

Global Instance shared_signal_eq_dec : EqDecision shared_signal.
Proof. solve_decision. Defined.



(** A source attached to a finalized manager: the manager sees the source's
    [status] and [pending] outputs, and the source sees the clear line the
    manager drives. *)
Definition wired (self : EventManager) (i : Inputs) (s : EventSource)
  (st : src_state) (trig : bool) : Prop :=
  let clr := settle self i (src (duid s) clear) in
  in_status i (duid s) = src_outputs (logic (kind s)) st trig clr status
  ∧ in_pending i (duid s) = src_outputs (logic (kind s)) st trig clr pending.

(** The clock edge of that source inside the manager. *)
Definition attached_tick (self : EventManager) (i : Inputs) (s : EventSource)
  (st : src_state) (trig : bool) : src_state :=
  src_tick (logic (kind s)) st trig (settle self i (src (duid s) clear)).

(** A trigger in cycle 2 only, never a clear. *)
Definition late_trigger : nat → bool * bool := λ t, (bool_decide (t = 2), false).

(** A trigger held high for ever, never a clear. *)
Definition held_high : nat → bool * bool := λ _, (true, false).

(** Three sources, as a design creates them. *)
Definition three_specs : list (variant * option string * option string) :=
  [(Pulse, Some "uart_rx", None); (Level, Some "dma_slot", None);
   (Process, Some "dma_done", None)].

(** [uart_rx] latched and its trigger low. *)
Definition rx_latched : src_state := {| pending_reg := true; old_trigger_reg := false |}.

(** * Properties *)

(** ** Event sources *)

Section sources.
Implicit Types (st : src_state) (inp : nat → bool * bool) (t : nat).

Lemma pulse_outputs st trig clr s :
  src_outputs EventSourcePulse st trig clr s =
  match s with status => false | _ => src_base st trig clr s end.
Proof. by destruct s. Qed.

Lemma pulse_tick st trig clr :
  src_tick EventSourcePulse st trig clr =
  {| pending_reg := if trig then true else if clr then false else pending_reg st;
     old_trigger_reg := old_trigger_reg st |}.
Proof. by destruct trig, clr. Qed.

Lemma pulse_pending_next inp t :
  src_at EventSourcePulse inp (S t) pending =
  if (inp t).1 then true
  else if (inp t).2 then false
  else src_at EventSourcePulse inp t pending.
Proof.
  unfold src_at. rewrite !pulse_outputs. cbn [src_run src_base].
  by rewrite pulse_tick.
Qed.

(** Once set, pending survives any number of cycles without a clear. *)
Lemma pulse_hold inp t k :
  src_at EventSourcePulse inp t pending = true →
  (∀ j, t ≤ j < t + k → (inp j).2 = false) →
  src_at EventSourcePulse inp (t + k) pending = true.
Proof.
  intros Hset. induction k as [|k IH]; intros Hclr.
  - by rewrite Nat.add_0_r.
  - rewrite Nat.add_succ_r, pulse_pending_next.
    rewrite (Hclr (t + k)) by lia. rewrite IH by (intros; apply Hclr; lia).
    by destruct (inp (t + k)).1.
Qed.

Lemma process_outputs st trig clr s :
  src_outputs EventSourceProcess st trig clr s =
  match s with status => trig | _ => src_base st trig clr s end.
Proof. by destruct s. Qed.

Lemma process_tick st trig clr :
  src_tick EventSourceProcess st trig clr =
  {| pending_reg := if negb trig && old_trigger_reg st then true
                    else if clr then false else pending_reg st;
     old_trigger_reg := trig |}.
Proof. destruct st as [p o]. by destruct trig, clr, o. Qed.

Lemma level_outputs st trig clr s :
  src_outputs EventSourceLevel st trig clr s =
  match s with status | pending => trig | _ => src_base st trig clr s end.
Proof. by destruct s. Qed.

Lemma level_tick st trig clr : src_tick EventSourceLevel st trig clr = st.
Proof. by destruct st. Qed.

(** C4: a Pulse source.  Its status is 0 in every cycle; the clocked update
    applies the clear first and the trigger second, so the trigger wins when
    both are asserted; a one-cycle trigger sets pending, which then stays 1
    through every cycle without a clear, and a clear without a trigger
    brings it back to 0. *)
Theorem C4_pulse_semantics inp t :
  src_at EventSourcePulse inp t status = false
  ∧ src_at EventSourcePulse inp (S t) pending =
      (if (inp t).1 then true
       else if (inp t).2 then false
       else src_at EventSourcePulse inp t pending)
  ∧ ((inp t).1 = true → (inp t).2 = true →
     src_at EventSourcePulse inp (S t) pending = true)
  ∧ (∀ k, (inp t).1 = true →
       (∀ j, S t ≤ j < S t + k → (inp j).2 = false) →
       src_at EventSourcePulse inp (S t + k) pending = true)
  ∧ ((inp t).1 = false → (inp t).2 = true →
     src_at EventSourcePulse inp (S t) pending = false).
Proof.
  split_and!.
  - unfold src_at. by rewrite pulse_outputs.
  - apply pulse_pending_next.
  - intros Ht _. by rewrite pulse_pending_next, Ht.
  - intros k Ht Hclr. apply pulse_hold; [|done].
    by rewrite pulse_pending_next, Ht.
  - intros Ht Hc. by rewrite pulse_pending_next, Ht, Hc.
Qed.

Lemma C4_witness : src_at EventSourcePulse pulse_stream 3 pending = true.
Proof.
  refine (proj1 (proj2 (proj2 (proj2 (C4_pulse_semantics pulse_stream 0)))) 2 _ _).
  - reflexivity.
  - intros j Hj. destruct j as [|[|[|j]]]; [lia|reflexivity|reflexivity|lia].
Defined.

(** C5: a Process source.  Status is the trigger of the same cycle;
    [old_trigger] holds the trigger of the previous cycle; pending is set at
    the clock edge of a cycle in which the trigger is low and [old_trigger]
    high, that is one cycle after the trigger went from 1 to 0, and it is
    set then and only then; once set it stays until a clear. *)
Theorem C5_process_semantics inp t :
  src_at EventSourceProcess inp t status = (inp t).1
  ∧ src_at EventSourceProcess inp 0 old_trigger = false
  ∧ src_at EventSourceProcess inp (S t) old_trigger = (inp t).1
  ∧ src_at EventSourceProcess inp 0 pending = false
  ∧ src_at EventSourceProcess inp 1 pending = false
  ∧ src_at EventSourceProcess inp (S (S t)) pending =
      (if (inp t).1 && negb (inp (S t)).1 then true
       else if (inp (S t)).2 then false
       else src_at EventSourceProcess inp (S t) pending).
Proof.
  unfold src_at. rewrite !process_outputs. cbn [src_run src_base].
  rewrite !process_tick. cbn.
  split_and!; try done.
  - by destruct (inp 0).1, (inp 0).2.
  - by destruct (inp t).1, (inp (S t)).1.
Qed.

(** C6: a Level source.  Status and pending are the trigger of the same
    cycle, whatever the registers and the clear line hold; the source has no
    clocked statement, so a clock edge changes nothing. *)
Theorem C6_level_semantics inp t st st' trig clr clr' :
  src_at EventSourceLevel inp t status = (inp t).1
  ∧ src_at EventSourceLevel inp t pending = (inp t).1
  ∧ src_outputs EventSourceLevel st trig clr status = trig
  ∧ src_outputs EventSourceLevel st trig clr pending = trig
  ∧ src_outputs EventSourceLevel st trig clr status =
      src_outputs EventSourceLevel st' trig clr' status
  ∧ src_outputs EventSourceLevel st trig clr pending =
      src_outputs EventSourceLevel st' trig clr' pending
  ∧ sync EventSourceLevel = []
  ∧ src_tick EventSourceLevel st trig clr = st.
Proof.
  unfold src_at. rewrite !level_outputs. split_and!; try done.
  apply level_tick.
Qed.

End sources.

(** ** Sorting by key *)

Section sorted.
Context {A : Type} (key : A → Z).
Implicit Types (x : A) (l : list A).

Local Instance key_le_trans : Transitive (key_le key).
Proof. unfold key_le. intros x y z. lia. Qed.

Lemma insert_sorted_Permutation x l : insert_sorted key x l ≡ₚ x :: l.
Proof.
  induction l as [|y l IH]; cbn; [done|].
  case_decide; [done|]. rewrite IH. apply Permutation_swap.
Qed.

Lemma sorted_Permutation l : sorted key l ≡ₚ l.
Proof.
  induction l as [|x l IH]; cbn; [done|].
  by rewrite insert_sorted_Permutation, IH.
Qed.

Lemma insert_sorted_Sorted x l :
  Sorted (key_le key) l → Sorted (key_le key) (insert_sorted key x l).
Proof.
  induction 1 as [|y l Hl IH Hhd]; cbn.
  - by repeat constructor.
  - case_decide.
    + repeat constructor; done.
    + constructor; [done|].
      destruct Hhd as [|z l' Hyz]; cbn.
      * constructor. unfold key_le. lia.
      * case_decide; constructor; unfold key_le in *; lia.
Qed.

Lemma sorted_Sorted l : Sorted (key_le key) (sorted key l).
Proof.
  induction l as [|x l IH]; cbn; [constructor|].
  by apply insert_sorted_Sorted.
Qed.

Lemma sorted_length l : length (sorted key l) = length l.
Proof. by rewrite sorted_Permutation. Qed.

Lemma elem_of_sorted x l : x ∈ sorted key l ↔ x ∈ l.
Proof. by rewrite sorted_Permutation. Qed.

(** With pairwise distinct keys the result depends on the elements only,
    not on the order they come in. *)
Lemma sorted_unique l1 l2 :
  NoDup (key <$> l1) → l1 ≡ₚ l2 → sorted key l1 = sorted key l2.
Proof.
  intros Hnd Hperm.
  apply (Sorted_unique_strong (key_le key)); [|apply sorted_Sorted..|].
  - intros x y Hx Hy Hxy Hyx.
    apply (proj1 (elem_of_sorted _ _)) in Hx.
    apply (proj1 (elem_of_sorted _ _)) in Hy.
    rewrite <-Hperm in Hy.
    apply list_elem_of_lookup in Hx as [i Hi], Hy as [j Hj].
    assert (i = j) as ->; [|congruence].
    eapply NoDup_lookup; [done|by rewrite list_lookup_fmap, Hi|].
    rewrite list_lookup_fmap, Hj. cbn. f_equal. unfold key_le in *. lia.
  - by rewrite !sorted_Permutation.
Qed.

Lemma filter_all (P : A → Prop) `{∀ y, Decision (P y)} l :
  Forall P l → filter P l = l.
Proof.
  induction 1 as [|y l Hy _ IH]; [done|]. by rewrite filter_cons_True, IH.
Qed.

Lemma filter_none (P : A → Prop) `{∀ y, Decision (P y)} l :
  Forall (λ y, ¬ P y) l → filter P l = [].
Proof.
  induction 1 as [|y l Hy _ IH]; [done|]. by rewrite filter_cons_False.
Qed.

(** The position of an element in the sorted list is the number of elements
    with a smaller key. *)
Lemma sorted_lookup_rank l x :
  NoDup (key <$> l) → x ∈ l →
  sorted key l !! length (filter (λ y, (key y < key x)%Z) l) = Some x.
Proof.
  intros Hnd Hx.
  assert (length (filter (λ y, (key y < key x)%Z) l)
          = length (filter (λ y, (key y < key x)%Z) (sorted key l))) as ->.
  { by rewrite sorted_Permutation. }
  rewrite <-(sorted_Permutation l) in Hnd, Hx.
  pose proof (Sorted_StronglySorted _ _ (sorted_Sorted l)) as Hs.
  apply list_elem_of_split in Hx as (l1 & l2 & Heq).
  rewrite Heq in *. clear Heq.
  apply StronglySorted_app in Hs as (H12 & _ & [Hx2 _]%StronglySorted_cons).
  rewrite fmap_app, fmap_cons in Hnd.
  apply NoDup_app in Hnd as (_ & Hd1 & [Hd2 _]%NoDup_cons).
  rewrite filter_app, filter_cons_False by lia.
  rewrite filter_all, filter_none, app_nil_r.
  - by apply list_lookup_middle.
  - apply Forall_forall. intros y Hy.
    rewrite Forall_forall in Hx2. specialize (Hx2 y Hy). unfold key_le in Hx2. lia.
  - apply Forall_forall. intros y Hy.
    assert (key_le key y x) as Hle by (apply H12; set_solver).
    assert (key y ≠ key x); [|unfold key_le in Hle; lia].
    intros Heq. apply (Hd1 (key x)); [|set_solver].
    rewrite <-Heq. by apply list_elem_of_fmap_2.
Qed.

End sorted.

(** ** The loops of do_finalize *)

Lemma enumerate_snoc {A} (l : list A) x :
  enumerate (l ++ [x]) = enumerate l ++ [(length l, x)].
Proof. unfold enumerate. rewrite imap_app. cbn. by rewrite Nat.add_0_r. Qed.

Lemma elem_of_enumerate {A} (l : list A) i x : (i, x) ∈ enumerate l ↔ l !! i = Some x.
Proof.
  unfold enumerate. rewrite elem_of_lookup_imap. split.
  - by intros (j & y & [= -> ->] & ?).
  - eauto.
Qed.

Lemma enumerate_fst {A} (l : list A) : (enumerate l).*1 = seq 0 (length l).
Proof.
  unfold enumerate. rewrite fmap_imap.
  rewrite (imap_ext _ (λ i _, id i)) by done.
  by rewrite (imap_seq_0 l id), list_fmap_id.
Qed.

Lemma annotate_eq d f l : annotate d f l = (d <$> last l, imap f l).
Proof.
  unfold annotate. induction l as [|x l IH] using rev_ind; [done|].
  rewrite enumerate_snoc, foldl_app, IH. cbn.
  rewrite last_snoc, imap_app. cbn. by rewrite Nat.add_0_r.
Qed.

Lemma setattr_csr nm c m : setattr nm (VCSR c) m = (Ok tt, set_attr nm (VCSR c) m).
Proof. done. Qed.

Lemma reduce_irqs n :
  reduce Or (irq_term <$> seq 0 (S n)) = Ok (foldl Or (irq_term 0) (irq_term <$> seq 1 n)).
Proof. done. Qed.

Lemma do_finalize_unfold m :
  do_finalize m =
  let sources := sorted duid (sources_u m) in
  match sources with
  | [] => (Raise UnboundLocalError, m)
  | _ :: l =>
      let '(st, pd, m1) := finalize_regs sources m in
      (for_each (enumerate sources) (wire st pd);;
       irq_eq ← getattr_irq_eq;
       iadd_comb [irq_eq (foldl Or (irq_term 0) (irq_term <$> seq 1 (length l)))]) m1
  end.
Proof.
  unfold do_finalize. unfold mbind at 1, M_bind at 1. unfold gets at 1.
  cbv zeta. rewrite !annotate_eq.
  destruct (sorted duid (sources_u m)) as [|s l] eqn:Hs; [done|].
  unfold finalize_regs.
  destruct (last (s :: l)) as [x|] eqn:Hlast.
  2:{ by apply last_None in Hlast. }
  cbn [fmap option_fmap option_map default local length].
  unfold mbind, M_bind. cbn [mret M_ret]. rewrite !setattr_csr.
  rewrite reduce_irqs. done.
Qed.

Lemma status_field_name i s : f_name (status_field i s) = field_name i s.
Proof. unfold status_field, field_name. by destruct (name s). Qed.
Lemma pending_field_name i s : f_name (pending_field i s) = field_name i s.
Proof. unfold pending_field, field_name. by destruct (name s). Qed.
Lemma enable_field_name i s : f_name (enable_field i s) = field_name i s.
Proof. unfold enable_field, field_name. by destruct (name s). Qed.

Lemma pack_names k fs : f_name <$> pack k fs = f_name <$> fs.
Proof. revert k. induction fs as [|f fs IH]; intros k; cbn; [done|]. by rewrite IH. Qed.

Lemma pack_length k fs : length (pack k fs) = length fs.
Proof. revert k. induction fs as [|f fs IH]; intros k; cbn; [done|]. by rewrite IH. Qed.

Lemma pack_offsets k fs :
  unit_fields k fs → offset <$> pack k fs = seq k (length fs).
Proof.
  revert k. induction fs as [|f fs IH]; intros k Hu; cbn; [done|].
  destruct (Hu 0 f eq_refl) as [Hsz Hoff].
  assert (default k (f_offset f) = k) as ->.
  { destruct Hoff as [->| ->]; cbn; lia. }
  unfold offset at 1. cbn. f_equal. rewrite Hsz, Nat.add_1_r. apply IH.
  intros j g Hj. destruct (Hu (S j) g Hj) as [? ?].
  split; [done|]. by rewrite Nat.add_succ_comm.
Qed.

Lemma unit_fields_status l : unit_fields 0 (imap status_field l).
Proof.
  intros j g Hj. rewrite list_lookup_imap in Hj.
  destruct (l !! j) as [s|]; [|done]. injection Hj as <-.
  unfold status_field. destruct (name s); cbn; auto.
Qed.
Lemma unit_fields_pending l : unit_fields 0 (imap pending_field l).
Proof.
  intros j g Hj. rewrite list_lookup_imap in Hj.
  destruct (l !! j) as [s|]; [|done]. injection Hj as <-.
  unfold pending_field. destruct (name s); cbn; auto.
Qed.
Lemma unit_fields_enable l : unit_fields 0 (imap enable_field l).
Proof.
  intros j g Hj. rewrite list_lookup_imap in Hj.
  destruct (l !! j) as [s|]; [|done]. injection Hj as <-.
  unfold enable_field. destruct (name s); cbn; auto.
Qed.

Lemma lookup_field_None nm fs : nm ∉ f_name <$> fs → lookup_field nm fs = None.
Proof.
  induction fs as [|f fs IH]; cbn; [done|].
  intros Hnm. rewrite not_elem_of_cons in Hnm.
  destruct Hnm as [Hne Hnm]. rewrite IH by done.
  by rewrite decide_False by (intros Heq; apply Hne; by rewrite Heq).
Qed.

Lemma lookup_field_Some nm fs f :
  lookup_field nm fs = Some f → f ∈ fs ∧ f_name f = nm.
Proof.
  induction fs as [|g fs IH]; cbn; [done|].
  destruct (lookup_field nm fs) as [h|].
  - intros [= ->]. destruct IH as [? ?]; [done|]. split; [by right|done].
  - case_decide; [|done]. intros [= ->]. split; [by left|done].
Qed.

Lemma lookup_field_is_Some nm fs : nm ∈ f_name <$> fs → is_Some (lookup_field nm fs).
Proof.
  induction fs as [|g fs IH]; cbn; [set_solver|].
  intros [->|Hin]%elem_of_cons.
  - destruct (lookup_field _ fs); [by eexists|]. rewrite decide_True by done. by eexists.
  - destruct (IH Hin) as [h ->]. by eexists.
Qed.

Lemma lookup_field_NoDup fs i f :
  NoDup (f_name <$> fs) → fs !! i = Some f → lookup_field (f_name f) fs = Some f.
Proof.
  revert i. induction fs as [|g fs IH]; intros i Hnd Hi; [done|].
  rewrite fmap_cons in Hnd. apply NoDup_cons in Hnd as [Hg Hnd]. cbn.
  destruct i as [|i]; cbn in Hi.
  - injection Hi as ->. rewrite lookup_field_None by done. by rewrite decide_True.
  - by rewrite (IH i).
Qed.

Lemma add_comb_nil m : add_comb [] m = m.
Proof. destruct m. unfold add_comb. cbn. by rewrite app_nil_r. Qed.

Lemma add_comb_add_comb a b m : add_comb b (add_comb a m) = add_comb (a ++ b) m.
Proof. unfold add_comb. cbn. by rewrite app_assoc. Qed.

(** [self.comb += l] on the proxy, and on anything else. *)
Lemma iadd_comb_proxy l m : proxy_at "comb" m → iadd_comb l m = (Ok tt, emit l m).
Proof. unfold iadd_comb, emit. by intros [-> | ->]. Qed.

Lemma iadd_comb_other l m :
  ¬ proxy_at "comb" m → iadd_comb l m = (Raise TypeError, m).
Proof.
  unfold iadd_comb, proxy_at. intros Hno.
  destruct (attrs m !! "comb") as [[]|]; try done; destruct Hno; auto.
Qed.

Lemma proxy_at_emit a m : proxy_at "comb" (emit a m).
Proof. right. unfold emit. cbn. by rewrite lookup_insert_eq. Qed.

Lemma emit_emit a b m : emit b (emit a m) = emit (a ++ b) m.
Proof. unfold emit, set_attr, add_comb. cbn. by rewrite insert_insert_eq, app_assoc. Qed.

Lemma emit_opt_emit a b m : emit_opt b (emit a m) = emit (a ++ b) m.
Proof.
  destruct b as [|x b]; cbn; [by rewrite app_nil_r|]. by rewrite emit_emit.
Qed.

Lemma emit_opt_cons x a m : emit_opt (x :: a) m = emit (x :: a) m.
Proof. done. Qed.

Lemma emit_opt_wires l m : l ≠ [] → emit_opt (wires l) m = emit (wires l) m.
Proof. by destruct l. Qed.

Lemma wire_stmts_cons st pd isrc stmts :
  wire_stmts st pd isrc = Ok stmts → ∃ x rest, stmts = x :: rest.
Proof.
  unfold wire_stmts, mbind, result_bind, mret, result_ret.
  destruct (getattr_fields st _); [|done].
  destruct (getattr_fields pd _); [|done]. intros [= <-]. eauto.
Qed.

Lemma wire_stmts_named st pd isrc stmts :
  wire_stmts st pd isrc = Ok stmts → named isrc.2.
Proof.
  unfold wire_stmts, named. destruct (name isrc.2); [by eexists|done].
Qed.

Lemma wire_stmts_exn st pd isrc e :
  wire_stmts st pd isrc = Raise e → e = TypeError ∨ e = AttributeError.
Proof.
  unfold wire_stmts, getattr_fields, mbind, result_bind, mret, result_ret.
  destruct (name isrc.2) as [nm|]; [|intros [= <-]; auto].
  destruct (lookup_field nm (c_fields st)); [|intros [= <-]; auto].
  destruct (lookup_field nm (c_fields pd)); [done|intros [= <-]; auto].
Qed.

Lemma wire_stmts_unnamed st pd isrc :
  name isrc.2 = None → wire_stmts st pd isrc = Raise TypeError.
Proof. unfold wire_stmts. by intros ->. Qed.

Lemma for_each_wire_Ok st pd l m :
  proxy_at "comb" m →
  (∀ isrc, isrc ∈ l → wire_stmts st pd isrc = Ok (wire3 isrc.1 (duid isrc.2))) →
  for_each l (wire st pd) m = (Ok tt, emit_opt (wires l) m).
Proof.
  revert m. induction l as [|isrc l IH]; intros m Hp Hl; cbn; [done|].
  unfold mbind, M_bind, wire at 1, lift.
  rewrite Hl by set_solver. unfold mbind, M_bind.
  rewrite iadd_comb_proxy by done.
  rewrite IH; [|apply proxy_at_emit|intros; apply Hl; set_solver].
  by rewrite emit_opt_emit.
Qed.

Lemma for_each_wire_inv st pd l m r m' :
  for_each l (wire st pd) m = (r, m') →
  match r with
  | Ok _ => Forall (λ isrc, named isrc.2) l ∧ (l = [] ∨ proxy_at "comb" m)
  | Raise e => e = TypeError ∨ e = AttributeError
  end.
Proof.
  revert m. induction l as [|isrc l IH]; intros m; cbn.
  - intros [= <- _]. split; [constructor|by left].
  - unfold mbind, M_bind, wire at 1, lift.
    destruct (wire_stmts st pd isrc) as [stmts|e] eqn:Hw.
    + unfold mbind, M_bind.
      destruct (decide (proxy_at "comb" m)) as [Hp|Hp].
      * rewrite iadd_comb_proxy by done. intros Hrest. specialize (IH _ Hrest).
        destruct r; [|done]. destruct IH as [IH _]. split; [|by right].
        constructor; [|done]. by eapply wire_stmts_named.
      * rewrite iadd_comb_other by done. intros [= <- _]. by left.
    + intros [= <- _]. by eapply wire_stmts_exn.
Qed.

(** ** The registers give the source of rank i the field at bit i *)
Lemma field_names_named L :
  Forall named L → imap field_name L = (λ s, default EmptyString (name s)) <$> L.
Proof.
  intros Hn. rewrite <-imap_const. apply imap_ext. intros i s Hi. cbn.
  rewrite Forall_forall in Hn. destruct (Hn s) as [nm Hnm].
  { by eapply list_elem_of_lookup_2. }
  unfold field_name. by rewrite Hnm.
Qed.

Lemma field_names_NoDup L :
  Forall named L → NoDup (name <$> L) → NoDup (imap field_name L).
Proof.
  intros Hn Hnd. rewrite field_names_named by done.
  apply (NoDup_fmap_1 Some). rewrite <-list_fmap_compose.
  erewrite list_fmap_ext; [done|]. intros i s Hi. cbn.
  rewrite Forall_forall in Hn. destruct (Hn s) as [nm Hnm].
  { by eapply list_elem_of_lookup_2. }
  by rewrite Hnm.
Qed.

Lemma packed_lookup (F : nat → EventSource → CSRField) L i s nm :
  (∀ j t, f_name (F j t) = field_name j t) →
  unit_fields 0 (imap F L) →
  Forall named L → NoDup (name <$> L) →
  L !! i = Some s → name s = Some nm →
  ∃ f, lookup_field nm (pack 0 (imap F L)) = Some f ∧ offset f = i.
Proof.
  intros HF HU Hn Hnd Hi Hnm.
  assert (f_name <$> pack 0 (imap F L) = imap field_name L) as Hnames.
  { rewrite pack_names, fmap_imap. apply imap_ext. intros; apply HF. }
  destruct (lookup_lt_is_Some_2 (pack 0 (imap F L)) i) as [f Hf].
  { rewrite pack_length, length_imap. by eapply lookup_lt_Some. }
  assert (f_name f = nm) as Hfn.
  { assert ((f_name <$> pack 0 (imap F L)) !! i = Some (f_name f)) as Hl
      by by rewrite list_lookup_fmap, Hf.
    rewrite Hnames, list_lookup_imap, Hi in Hl. cbn in Hl.
    unfold field_name in Hl. rewrite Hnm in Hl. cbn in Hl. congruence. }
  exists f. split.
  - rewrite <-Hfn. eapply lookup_field_NoDup; [|done].
    rewrite Hnames. by apply field_names_NoDup.
  - assert ((offset <$> pack 0 (imap F L)) !! i = Some (offset f)) as Hl
      by by rewrite list_lookup_fmap, Hf.
    rewrite pack_offsets in Hl by done.
    apply lookup_seq in Hl as [? _]. lia.
Qed.

Lemma wire_stmts_good L n d1 d2 i s :
  Forall named L → NoDup (name <$> L) → L !! i = Some s →
  wire_stmts (CSRStatus n d1 (imap status_field L))
             (CSRStatus n d2 (imap pending_field L)) (i, s)
  = Ok (wire3 i (duid s)).
Proof.
  intros Hn Hnd Hi.
  rewrite Forall_forall in Hn. destruct (Hn s) as [nm Hnm].
  { by eapply list_elem_of_lookup_2. }
  rewrite <-Forall_forall in Hn.
  destruct (packed_lookup status_field L i s nm) as (f1 & Hf1 & Ho1);
    auto using status_field_name, unit_fields_status.
  destruct (packed_lookup pending_field L i s nm) as (f2 & Hf2 & Ho2);
    auto using pending_field_name, unit_fields_pending.
  unfold wire_stmts, getattr_fields. cbn [snd fst CSRStatus c_fields].
  rewrite Hnm, Hf1, Hf2. cbn. by rewrite Ho1, Ho2.
Qed.

(** The annotation part of [do_finalize] leaves [comb] and [irq] alone. *)
Lemma finalize_regs_lookup sources m k :
  k ≠ "status" → k ≠ "pending" → k ≠ "enable" →
  attrs (finalize_regs sources m).2 !! k = attrs m !! k.
Proof.
  intros. unfold finalize_regs. cbn. by rewrite !lookup_insert_ne.
Qed.

Lemma finalize_regs_proxy_at sources m :
  proxy_at "comb" (finalize_regs sources m).2 ↔ proxy_at "comb" m.
Proof. unfold proxy_at. by rewrite finalize_regs_lookup. Qed.

Lemma getattr_irq_eq_Ok m f m' :
  getattr_irq_eq m = (Ok f, m') →
  attrs m !! "irq" = Some VSignal ∧ f = Assign irq ∧ m' = m.
Proof.
  unfold getattr_irq_eq. destruct (attrs m !! "irq") as [[]|]; try done.
  by intros [= <- <-].
Qed.

Lemma getattr_irq_eq_signal m :
  attrs m !! "irq" = Some VSignal → getattr_irq_eq m = (Ok (Assign irq), m).
Proof. unfold getattr_irq_eq. by intros ->. Qed.

Lemma getattr_irq_eq_other m :
  attrs m !! "irq" ≠ Some VSignal → getattr_irq_eq m = (Raise AttributeError, m).
Proof.
  unfold getattr_irq_eq. by destruct (attrs m !! "irq") as [[]|].
Qed.

Lemma for_each_wire_attrs st pd l m r m' k :
  for_each l (wire st pd) m = (r, m') → k ≠ "comb" → attrs m' !! k = attrs m !! k.
Proof.
  revert m. induction l as [|isrc l IH]; intros m; cbn.
  - by intros [= _ <-].
  - unfold mbind, M_bind, wire at 1, lift.
    destruct (wire_stmts st pd isrc) as [stmts|e]; [|by intros [= _ <-]].
    unfold mbind, M_bind.
    destruct (decide (proxy_at "comb" m)) as [Hp|Hp].
    + rewrite iadd_comb_proxy by done. intros Hrest Hk.
      rewrite (IH _ Hrest Hk). unfold emit. cbn. by rewrite lookup_insert_ne.
    + rewrite iadd_comb_other by done. by intros [= _ <-].
Qed.

Lemma do_finalize_Ok_inv m m' :
  do_finalize m = (Ok tt, m') →
  let sources := sorted duid (sources_u m) in
  sources ≠ [] ∧ Forall named sources
  ∧ proxy_at "comb" m ∧ attrs m !! "irq" = Some VSignal.
Proof.
  rewrite do_finalize_unfold. cbv zeta.
  destruct (sorted duid (sources_u m)) as [|s l] eqn:Hs; [done|].
  unfold finalize_regs. unfold mbind, M_bind.
  destruct (for_each _ _ _) as [[[]|e] m2] eqn:Hrun; [|done].
  destruct (getattr_irq_eq m2) as [[f|e] m3] eqn:Hirq; [|done].
  intros _. apply getattr_irq_eq_Ok in Hirq as (Hirq & _ & _).
  rewrite (for_each_wire_attrs _ _ _ _ _ _ "irq" Hrun) in Hirq by done.
  cbn in Hirq. rewrite !lookup_insert_ne in Hirq by done.
  apply for_each_wire_inv in Hrun as [Hrun Hp].
  split_and!; [done| | |done].
  - apply Forall_forall. intros x Hx.
    apply list_elem_of_lookup in Hx as [i Hi].
    rewrite Forall_forall in Hrun. apply (Hrun (i, x)).
    by apply elem_of_enumerate.
  - destruct Hp as [Hp|Hp]; [done|].
    unfold proxy_at in *. cbn in Hp. by rewrite !lookup_insert_ne in Hp.
Qed.

Lemma do_finalize_named m :
  let sources := sorted duid (sources_u m) in
  sources ≠ [] → Forall named sources → NoDup (name <$> sources) →
  proxy_at "comb" m → attrs m !! "irq" = Some VSignal →
  do_finalize m =
  (Ok tt, emit (wires (enumerate sources) ++ [irq_stmt (length sources)])
               (finalize_regs sources m).2).
Proof.
  cbv zeta. intros Hne Hn Hnd Hp Hirq.
  rewrite do_finalize_unfold. cbv zeta.
  destruct (sorted duid (sources_u m)) as [|s l] eqn:Hs; [done|].
  unfold finalize_regs. unfold mbind, M_bind.
  rewrite for_each_wire_Ok.
  - rewrite emit_opt_wires by done. rewrite getattr_irq_eq_signal.
    2:{ unfold emit. cbn. by rewrite !lookup_insert_ne. }
    rewrite iadd_comb_proxy by apply proxy_at_emit.
    rewrite emit_emit. unfold irq_stmt. cbn [length snd].
    by replace (S (length l) - 1) with (length l) by lia.
  - unfold proxy_at in *. cbn. by rewrite !lookup_insert_ne.
  - intros [i x] Hix%elem_of_enumerate. by apply wire_stmts_good.
Qed.

Lemma finalizes_inv m m' :
  finalizes m m' →
  let sources := sorted duid (sources_u m) in
  sources ≠ [] ∧ Forall named sources
  ∧ NoDup (duid <$> sources) ∧ NoDup (name <$> sources)
  ∧ m' = emit (wires (enumerate sources) ++ [irq_stmt (length sources)])
              (finalize_regs sources m).2.
Proof.
  intros (Hc & Hd & Hnm & Hfin). cbv zeta.
  destruct (do_finalize_Ok_inv _ _ Hfin) as (Hne & Hn & Hp & Hirq).
  assert (NoDup (name <$> sorted duid (sources_u m))) as Hnm'
    by by rewrite sorted_Permutation.
  split_and!; try done.
  - by rewrite sorted_Permutation.
  - rewrite do_finalize_named in Hfin by done. congruence.
Qed.

(** ** Executing statements *)
Section exec.
Context {sig : Type} `{EqDecision sig}.
Implicit Types (rd wr : sig → bool) (st : stmt sig) (l : list (stmt sig)) (t : sig).

Lemma stmt_ind' (P : stmt sig → Prop) :
  (∀ s e, P (Assign s e)) →
  (∀ c body, Forall P body → P (If c body)) →
  ∀ st, P st.
Proof.
  intros HA HI. fix IH 1. intros [s e|c body]; [apply HA|].
  apply HI. induction body as [|st body IHb]; constructor; [apply IH|apply IHb].
Qed.

Lemma exec_all_nil rd wr : exec_all rd [] wr = wr.
Proof. done. Qed.

Lemma exec_all_cons rd st l wr :
  exec_all rd (st :: l) wr = exec_all rd l (exec rd st wr).
Proof. done. Qed.

Lemma exec_all_app rd l1 l2 wr :
  exec_all rd (l1 ++ l2) wr = exec_all rd l2 (exec_all rd l1 wr).
Proof. unfold exec_all. apply foldl_app. Qed.

Lemma exec_If rd c body wr :
  exec rd (If c body) wr = if eval rd c then exec_all rd body wr else wr.
Proof. done. Qed.

(** A statement leaves alone every signal it does not assign. *)
Lemma exec_skip rd st wr t : t ∉ targets st → exec rd st wr t = wr t.
Proof.
  revert wr. induction st as [s e|c body IH] using stmt_ind'; intros wr Ht.
  - cbn in *. apply fn_lookup_insert_ne. set_solver.
  - rewrite exec_If. destruct (eval rd c); [|done].
    cbn [targets] in Ht. revert wr.
    induction IH as [|st body Hst _ IHb]; intros wr; [done|].
    rewrite exec_all_cons. cbn in Ht. rewrite elem_of_app in Ht.
    rewrite IHb by tauto. apply Hst. tauto.
Qed.

Lemma exec_all_skip rd l wr t :
  Forall (λ st, t ∉ targets st) l → exec_all rd l wr t = wr t.
Proof.
  intros Hl. revert wr. induction Hl as [|st l Hst _ IH]; intros wr; [done|].
  rewrite exec_all_cons, IH. by apply exec_skip.
Qed.

Lemma eval_foldl_Or rd (e : expr sig) (l : list (expr sig)) :
  eval rd (foldl Or e l) = eval rd e || existsb (eval rd) l.
Proof.
  revert e. induction l as [|e' l IH]; intros e; cbn.
  - by rewrite orb_false_r.
  - by rewrite IH, orb_assoc.
Qed.

End exec.

Lemma existsb_fmap {A B} (f : A → B) (p : B → bool) (l : list A) :
  existsb p (f <$> l) = existsb (p ∘ f) l.
Proof. induction l as [|x l IH]; cbn; [done|]. by rewrite IH. Qed.

Lemma existsb_ext_in {A} (p q : A → bool) (l : list A) :
  (∀ x, x ∈ l → p x = q x) → existsb p l = existsb q l.
Proof.
  induction l as [|x l IH]; intros Hpq; cbn; [done|].
  rewrite Hpq, IH; [done| |]; set_solver.
Qed.

Lemma existsb_true {A} (p : A → bool) (l : list A) :
  existsb p l = true ↔ ∃ x, x ∈ l ∧ p x = true.
Proof.
  rewrite existsb_exists. split; intros (x & ? & ?); exists x;
    by rewrite ?list_elem_of_In in *.
Qed.

Section pass.
Implicit Types (rd wr : signal → bool) (l : list (nat * EventSource)).

Lemma csr_bits_skip r n t :
  (∀ i, t ≠ csr_status r i) → Forall (λ st, t ∉ targets st) (csr_bits r n).
Proof.
  intros Ht. apply Forall_fmap, Forall_forall. intros i _. cbn.
  intros ->%list_elem_of_singleton. by eapply Ht.
Qed.

Lemma wires_skip l t :
  (∀ i s, (i, s) ∈ l →
     t ≠ field r_status i ∧ t ≠ field r_pending i ∧ t ≠ src (duid s) clear) →
  Forall (λ st, t ∉ targets st) (wires l).
Proof.
  intros Ht. unfold wires. apply Forall_flat_map, Forall_forall.
  intros [i s] His. destruct (Ht i s His) as (? & ? & ?). cbn.
  repeat constructor; cbn; by intros ->%list_elem_of_singleton.
Qed.

Lemma exec_csr_bits rd wr r n i :
  i < n → exec_all rd (csr_bits r n) wr (csr_status r i) = rd (field r i).
Proof.
  intros Hi. unfold csr_bits.
  replace n with (i + S (n - S i)) by lia.
  rewrite seq_app, fmap_app, exec_all_app. cbn [seq fmap list_fmap].
  rewrite exec_all_cons, exec_all_skip.
  - cbn. by rewrite fn_lookup_insert.
  - apply Forall_fmap, Forall_forall. intros j Hj%elem_of_seq. cbn.
    intros [=]%list_elem_of_singleton. lia.
Qed.

Lemma exec_wire3 rd wr i d t :
  exec_all rd (wire3 i d) wr t =
  if decide (t = src d clear) then
    (rd (csr_re r_pending) && rd (field r_pending i)) || wr t
  else if decide (t = field r_pending i) then rd (src d pending)
  else if decide (t = field r_status i) then rd (src d status)
  else wr t.
Proof.
  unfold wire3. rewrite !exec_all_cons, exec_all_nil, exec_If.
  cbn [exec eval]. rewrite exec_all_cons, exec_all_nil. cbn [exec eval].
  destruct (rd (csr_re r_pending) && rd (field r_pending i)) eqn:Hc; cbn [orb].
  - case_decide as Ht; [subst; by rewrite fn_lookup_insert|].
    rewrite fn_lookup_insert_ne by done.
    case_decide as Ht2; [subst; by rewrite fn_lookup_insert|].
    rewrite fn_lookup_insert_ne by done.
    case_decide as Ht3; [subst; by rewrite fn_lookup_insert|].
    by rewrite fn_lookup_insert_ne.
  - case_decide as Ht.
    { subst. by rewrite !fn_lookup_insert_ne. }
    case_decide as Ht2; [subst; by rewrite fn_lookup_insert|].
    rewrite fn_lookup_insert_ne by done.
    case_decide as Ht3; [subst; by rewrite fn_lookup_insert|].
    by rewrite fn_lookup_insert_ne.
Qed.

Lemma wires_cons j s l : wires ((j, s) :: l) = wire3 j (duid s) ++ wires l.
Proof. done. Qed.

Lemma exec_wires_field rd wr l i s :
  NoDup l.*1 → (i, s) ∈ l →
  exec_all rd (wires l) wr (field r_status i) = rd (src (duid s) status)
  ∧ exec_all rd (wires l) wr (field r_pending i) = rd (src (duid s) pending).
Proof.
  intros Hnd His. revert wr. induction l as [|[j s'] l IH]; intros wr.
  { by apply elem_of_nil in His. }
  rewrite fmap_cons in Hnd. apply NoDup_cons in Hnd as [Hj Hnd].
  rewrite wires_cons, !exec_all_app.
  apply elem_of_cons in His as [[= <- <-]|His]; [|by apply IH].
  assert (∀ t, (t = field r_status i ∨ t = field r_pending i) →
            Forall (λ st, t ∉ targets st) (wires l)) as Hskip.
  { intros t Ht. apply wires_skip. intros k u Hk.
    assert (k ≠ i).
    { intros ->. apply Hj. by apply (list_elem_of_fmap_2 fst) in Hk. }
    destruct Ht as [-> | ->]; split_and!; congruence. }
  rewrite !(exec_all_skip rd (wires l)) by auto.
  rewrite !exec_wire3. by repeat (case_decide; simplify_eq).
Qed.

Lemma exec_wires_clear rd wr l i s :
  NoDup ((duid ∘ snd) <$> l) → (i, s) ∈ l →
  exec_all rd (wires l) wr (src (duid s) clear)
  = (rd (csr_re r_pending) && rd (field r_pending i)) || wr (src (duid s) clear).
Proof.
  intros Hnd His. revert wr. induction l as [|[j s'] l IH]; intros wr.
  { by apply elem_of_nil in His. }
  rewrite fmap_cons in Hnd. apply NoDup_cons in Hnd as [Hj Hnd].
  rewrite wires_cons, !exec_all_app.
  apply elem_of_cons in His as [[= <- <-]|His].
  - rewrite (exec_all_skip rd (wires l)).
    + rewrite exec_wire3. by rewrite decide_True.
    + apply wires_skip. intros k t Hk. split_and!; try done.
      intros [= Hd]. apply Hj. cbn. rewrite Hd.
      by apply (list_elem_of_fmap_2 (duid ∘ snd)) in Hk.
  - rewrite IH by done.
    rewrite exec_wire3. rewrite decide_False; [|].
    + by repeat (case_decide; simplify_eq).
    + intros [= Hd]. apply Hj. cbn. rewrite <-Hd.
      by apply (list_elem_of_fmap_2 (duid ∘ snd)) in His.
Qed.

End pass.

Section design.
Context (sources : list EventSource).
Implicit Types (rd wr : signal → bool).

Lemma enumerate_NoDup_fst : NoDup (enumerate sources).*1.
Proof. rewrite enumerate_fst. apply NoDup_seq. Qed.

Lemma enumerate_NoDup_duid :
  NoDup (duid <$> sources) → NoDup ((duid ∘ snd) <$> enumerate sources).
Proof.
  intros Hd.
  unfold enumerate. rewrite fmap_imap.
  rewrite (imap_ext _ (const duid)) by done. by rewrite imap_const.
Qed.

Lemma irq_stmt_skip t k : t ≠ irq → Forall (λ st, t ∉ targets st) [irq_stmt k].
Proof. intros Ht. repeat constructor. cbn. by intros ->%list_elem_of_singleton. Qed.

(** Signals the manager's logic never assigns keep the value they had. *)
Lemma pass_skip rd wr t :
  (∀ r i, t ≠ csr_status r i) → (∀ r i, t ≠ field r i) →
  (∀ d, t ≠ src d clear) → t ≠ irq →
  exec_all rd (design sources) wr t = wr t.
Proof.
  intros H1 H2 H3 H4. apply exec_all_skip. unfold design.
  rewrite !Forall_app. split_and!.
  - by apply csr_bits_skip.
  - by apply csr_bits_skip.
  - apply wires_skip. intros i s _. split_and!; done.
  - by apply irq_stmt_skip.
Qed.

Lemma pass_field rd wr i s :
  sources !! i = Some s →
  exec_all rd (design sources) wr (field r_status i) = rd (src (duid s) status)
  ∧ exec_all rd (design sources) wr (field r_pending i) = rd (src (duid s) pending).
Proof.
  intros Hi. unfold design. rewrite !exec_all_app.
  rewrite !(exec_all_skip rd [irq_stmt _]) by by apply irq_stmt_skip.
  apply exec_wires_field; [apply enumerate_NoDup_fst|by apply elem_of_enumerate].
Qed.

Lemma pass_csr_status rd wr r i :
  r ≠ r_enable → i < length sources →
  exec_all rd (design sources) wr (csr_status r i) = rd (field r i).
Proof.
  intros Hr Hi. unfold design. rewrite !exec_all_app.
  rewrite (exec_all_skip rd [irq_stmt _]) by by apply irq_stmt_skip.
  rewrite (exec_all_skip rd (wires _)).
  2:{ apply wires_skip. intros j s _. split_and!; done. }
  destruct r; [| |done].
  - rewrite (exec_all_skip rd (csr_bits r_pending _)) by by apply csr_bits_skip.
    by apply exec_csr_bits.
  - by apply exec_csr_bits.
Qed.

Lemma pass_clear rd wr i s :
  NoDup (duid <$> sources) →
  sources !! i = Some s →
  exec_all rd (design sources) wr (src (duid s) clear)
  = (rd (csr_re r_pending) && rd (field r_pending i)) || wr (src (duid s) clear).
Proof.
  intros Hd Hi. unfold design. rewrite !exec_all_app.
  rewrite (exec_all_skip rd [irq_stmt _]) by by apply irq_stmt_skip.
  rewrite (exec_wires_clear _ _ _ i s);
    [|by apply enumerate_NoDup_duid|by apply elem_of_enumerate].
  by rewrite !exec_all_skip by by apply csr_bits_skip.
Qed.

Lemma pass_irq rd wr :
  sources ≠ [] →
  exec_all rd (design sources) wr irq
  = existsb (λ i, rd (csr_status r_pending i) && rd (csr_storage r_enable i))
            (seq 0 (length sources)).
Proof.
  intros Hne. unfold design. rewrite !exec_all_app.
  destruct sources as [|s l]; [done|]. cbn [length].
  unfold irq_stmt. rewrite exec_all_cons, exec_all_nil. cbn [exec].
  rewrite fn_lookup_insert, eval_foldl_Or, existsb_fmap.
  by replace (S (length l) - 1) with (length l) by lia.
Qed.

End design.

(** ** The logic of a finalized manager *)
Lemma emit_lookup X m k : k ≠ "comb" → attrs (emit X m) !! k = attrs m !! k.
Proof. intros. unfold emit. cbn. by rewrite lookup_insert_ne. Qed.

Lemma emit_opt_lookup X m k : k ≠ "comb" → attrs (emit_opt X m) !! k = attrs m !! k.
Proof. intros. destruct X; [done|]. by apply emit_lookup. Qed.

Lemma finalize_regs_attr sources m X :
  let m' := emit_opt X (finalize_regs sources m).2 in
  let n := length sources in
  csr_attr m' "status"
    = Some (CSRStatus n (default EmptyString (status_desc <$> last sources)) (imap status_field sources))
  ∧ csr_attr m' "pending"
    = Some (CSRStatus n (default EmptyString (pending_desc <$> last sources)) (imap pending_field sources))
  ∧ csr_attr m' "enable"
    = Some (CSRStorage n (default EmptyString (enable_desc <$> last sources)) (imap enable_field sources)).
Proof.
  cbv zeta. unfold csr_attr. rewrite !emit_opt_lookup by done.
  unfold finalize_regs. cbn [snd set_attr attrs].
  split_and!.
  - by rewrite lookup_insert_ne, lookup_insert_ne, lookup_insert_eq.
  - by rewrite lookup_insert_ne, lookup_insert_eq.
  - by rewrite lookup_insert_eq.
Qed.

Lemma finalize_regs_attr_emit sources m X :
  let m' := emit X (finalize_regs sources m).2 in
  let n := length sources in
  csr_attr m' "status"
    = Some (CSRStatus n (default EmptyString (status_desc <$> last sources)) (imap status_field sources))
  ∧ csr_attr m' "pending"
    = Some (CSRStatus n (default EmptyString (pending_desc <$> last sources)) (imap pending_field sources))
  ∧ csr_attr m' "enable"
    = Some (CSRStorage n (default EmptyString (enable_desc <$> last sources)) (imap enable_field sources)).
Proof.
  cbv zeta. unfold csr_attr. rewrite !emit_lookup by done.
  apply (finalize_regs_attr sources m []).
Qed.

Lemma CSRStatus_comb_bits r n d (F : nat → EventSource → CSRField) L :
  unit_fields 0 (imap F L) →
  CSRStatus_comb r (CSRStatus n d (imap F L)) = csr_bits r (length L).
Proof.
  intros HU. unfold CSRStatus_comb, csr_bits. cbn [CSRStatus c_fields].
  rewrite <-(length_imap F L), <-(pack_offsets 0) by done.
  by rewrite <-list_fmap_compose.
Qed.

Lemma netlist_finalizes m m' :
  finalizes m m' → netlist m' = design (sorted duid (sources_u m)).
Proof.
  intros Hfin. pose proof Hfin as (Hc & _).
  apply finalizes_inv in Hfin as (_ & _ & _ & _ & ->).
  unfold netlist.
  destruct (finalize_regs_attr_emit (sorted duid (sources_u m)) m
    (wires (enumerate (sorted duid (sources_u m)))
     ++ [irq_stmt (length (sorted duid (sources_u m)))])) as (-> & -> & _).
  cbn [from_option].
  rewrite !CSRStatus_comb_bits by auto using unit_fields_status, unit_fields_pending.
  unfold design, finalize_regs. cbn [snd emit add_comb set_attr fragment_comb].
  by rewrite Hc.
Qed.

Section settle.
Context (m m' : EventManager) (Hfin : finalizes m m') (inp : Inputs).
Let sources := sorted duid (sources_u m).

Lemma settle_unfold :
  settle m' inp =
  exec_all (exec_all (exec_all (base inp) (design sources) (base inp))
                     (design sources) (base inp))
           (design sources) (base inp).
Proof. unfold settle, comb_pass. by rewrite (netlist_finalizes m m' Hfin). Qed.

Lemma sources_NoDup : NoDup (duid <$> sources).
Proof. by apply finalizes_inv in Hfin as (_ & _ & ? & _). Qed.

Lemma sources_nonempty : sources ≠ [].
Proof. by apply finalizes_inv in Hfin as (? & _). Qed.

Lemma settle_source_status d : settle m' inp (src d status) = in_status inp d.
Proof. rewrite settle_unfold. by rewrite pass_skip. Qed.

Lemma settle_source_pending d : settle m' inp (src d pending) = in_pending inp d.
Proof. rewrite settle_unfold. by rewrite pass_skip. Qed.

Lemma settle_re : settle m' inp (csr_re r_pending) = in_re inp.
Proof. rewrite settle_unfold. by rewrite pass_skip. Qed.

Lemma settle_storage i :
  settle m' inp (csr_storage r_enable i) = Z.testbit (in_storage inp) (Z.of_nat i).
Proof. rewrite settle_unfold. by rewrite pass_skip. Qed.

Lemma settle_field i s :
  sources !! i = Some s →
  settle m' inp (field r_status i) = in_status inp (duid s)
  ∧ settle m' inp (field r_pending i) = in_pending inp (duid s).
Proof.
  intros Hi. rewrite settle_unfold.
  destruct (pass_field sources
    (exec_all (exec_all (base inp) (design sources) (base inp))
              (design sources) (base inp)) (base inp) i s Hi) as [-> ->].
  by rewrite !pass_skip.
Qed.

Lemma settle_csr_status i s :
  sources !! i = Some s →
  settle m' inp (csr_status r_status i) = in_status inp (duid s)
  ∧ settle m' inp (csr_status r_pending i) = in_pending inp (duid s).
Proof.
  intros Hi. rewrite settle_unfold.
  assert (i < length sources) by by eapply lookup_lt_Some.
  rewrite !(pass_csr_status sources _ _ _ i) by done.
  destruct (pass_field sources
    (exec_all (base inp) (design sources) (base inp)) (base inp) i s Hi) as [-> ->].
  by rewrite !pass_skip.
Qed.

Lemma settle_clear i s :
  sources !! i = Some s →
  settle m' inp (src (duid s) clear) = in_re inp && in_pending inp (duid s).
Proof.
  intros Hi. rewrite settle_unfold.
  rewrite (pass_clear sources _ _ i s sources_NoDup Hi).
  destruct (pass_field sources
    (exec_all (base inp) (design sources) (base inp)) (base inp) i s Hi) as [_ ->].
  rewrite !pass_skip by done. cbn. by rewrite orb_false_r.
Qed.

Lemma settle_irq :
  settle m' inp irq =
  existsb (λ i, settle m' inp (csr_status r_pending i)
                && settle m' inp (csr_storage r_enable i))
          (seq 0 (length sources)).
Proof.
  assert (settle m' inp irq =
          exec_all (exec_all (exec_all (base inp) (design sources) (base inp))
                             (design sources) (base inp))
                   (design sources) (base inp) irq) as ->
    by by rewrite settle_unfold.
  rewrite pass_irq by apply sources_nonempty.
  apply existsb_ext_in. intros i [_ Hi]%elem_of_seq. cbn in Hi.
  destruct (lookup_lt_is_Some_2 sources i Hi) as [s Hs]. 
  destruct (settle_csr_status i s Hs) as [_ ->].
  rewrite settle_storage.
  rewrite (pass_csr_status sources _ _ _ i) by done.
  destruct (pass_field sources
    (base inp) (base inp) i s Hs) as [_ ->].
  by rewrite !pass_skip.
Qed.

End settle.

Lemma sources_u_Permutation m :
  sources_u m ≡ₚ omap collect (map_to_list (attrs m)).
Proof.
  unfold sources_u, xdir, dir.
  assert (∀ l : list string,
    omap (λ kv : string * value, as_source kv.2)
      (omap (λ attr, if xdir_keeps attr then pair attr <$> attrs m !! attr else None) l)
    = omap (λ attr, if xdir_keeps attr then attrs m !! attr ≫= as_source else None) l)
    as ->.
  { induction l as [|k l IH]; [done|]. cbn.
    destruct (xdir_keeps k); [|done].
    destruct (attrs m !! k) as [v|]; cbn; [|done].
    by rewrite IH. }
  rewrite merge_sort_Permutation.
  assert (Forall (λ kv, attrs m !! kv.1 = Some kv.2) (map_to_list (attrs m))) as Hl.
  { apply Forall_forall. intros [k v]. apply elem_of_map_to_list. }
  induction Hl as [|[k v] l Hkv _ IH]; [done|].
  cbn in *. unfold collect at 1. cbn [fst snd]. rewrite Hkv. cbn.
  destruct (xdir_keeps k); [|done]. destruct (as_source v); by rewrite IH.
Qed.

Lemma elem_of_sources_u m s :
  s ∈ sources_u m ↔ ∃ k, xdir_keeps k = true ∧ attrs m !! k = Some (VSource s).
Proof.
  rewrite sources_u_Permutation, list_elem_of_omap. split.
  - intros ([k v] & Hkv%elem_of_map_to_list & Hc). unfold collect in Hc. cbn in Hc.
    destruct (xdir_keeps k) eqn:Hk; [|done].
    destruct v; simplify_eq/=. eauto.
  - intros (k & Hk & Hs). exists (k, VSource s). split.
    + by apply elem_of_map_to_list.
    + unfold collect. cbn. by rewrite Hk.
Qed.

(** Only the attribute dictionary matters to the collection. *)
Lemma sources_u_attrs m1 m2 : attrs m1 = attrs m2 → sources_u m1 = sources_u m2.
Proof. unfold sources_u, xdir, dir. by intros ->. Qed.


(** ** Attaching *)

(** Only the sources among the attribute values matter to the collection. *)
Lemma sources_u_alt m :
  sources_u m
  = omap (λ attr, if xdir_keeps attr then attrs m !! attr ≫= as_source else None) (dir m).
Proof.
  unfold sources_u, xdir. induction (dir m) as [|k l IH]; [done|]. cbn.
  destruct (xdir_keeps k); [|done].
  destruct (attrs m !! k) as [v|]; cbn; [|done].
  by rewrite IH.
Qed.

Lemma omap_filter_is_Some {A B} (f : A → option B) (l : list A) :
  omap f l = omap f (filter (λ x, is_Some (f x)) l).
Proof.
  induction l as [|x l IH]; [done|].
  destruct (f x) as [y|] eqn:Hx.
  - rewrite filter_cons_True by (rewrite Hx; by eexists). cbn. rewrite Hx.
    by f_equal.
  - rewrite filter_cons_False by (rewrite Hx; by intros [? ?]). cbn. by rewrite Hx.
Qed.

Lemma StronglySorted_filter {A} (R : relation A) (P : A → Prop)
    `{∀ x, Decision (P x)} (l : list A) :
  StronglySorted R l → StronglySorted R (filter P l).
Proof.
  induction 1 as [|x l Hl IH Hx]; [constructor|].
  destruct (decide (P x)).
  - rewrite filter_cons_True by done. constructor; [done|].
    apply Forall_forall. intros y [_ Hy]%list_elem_of_filter.
    rewrite Forall_forall in Hx. by apply Hx.
  - by rewrite filter_cons_False.
Qed.

Lemma sources_u_ext m1 m2 :
  (∀ k, attrs m1 !! k ≫= as_source = attrs m2 !! k ≫= as_source) →
  sources_u m1 = sources_u m2.
Proof.
  intros Hext. rewrite !sources_u_alt.
  set (g1 := λ attr, if xdir_keeps attr then attrs m1 !! attr ≫= as_source else None).
  set (g2 := λ attr, if xdir_keeps attr then attrs m2 !! attr ≫= as_source else None).
  assert (∀ k, g1 k = g2 k) as Hg.
  { intros k. unfold g1, g2. by rewrite Hext. }
  rewrite (omap_filter_is_Some g1), (omap_filter_is_Some g2).
  assert (∀ m (g : string → option EventSource),
            (∀ k, is_Some (g k) → is_Some (attrs m !! k)) →
            StronglySorted String.le (filter (λ x, is_Some (g x)) (dir m))
            ∧ NoDup (filter (λ x, is_Some (g x)) (dir m))
            ∧ ∀ k, k ∈ filter (λ x, is_Some (g x)) (dir m) ↔ is_Some (g k)) as Hdir.
  { intros m g Hin. unfold dir. split_and!.
    - apply StronglySorted_filter, StronglySorted_merge_sort; apply _.
    - apply NoDup_filter. rewrite merge_sort_Permutation.
      apply NoDup_fst_map_to_list.
    - intros k. rewrite list_elem_of_filter, merge_sort_Permutation.
      split; [by intros [? _]|]. intros Hk. split; [done|].
      destruct (Hin k Hk) as [v Hv].
      apply list_elem_of_fmap. exists (k, v). split; [done|].
      by apply elem_of_map_to_list. }
  destruct (Hdir m1 g1) as (Hs1 & Hn1 & He1).
  { intros k. unfold g1. destruct (xdir_keeps k); [|by intros [? ?]].
    destruct (attrs m1 !! k); [by eexists|by intros [? ?]]. }
  destruct (Hdir m2 g2) as (Hs2 & Hn2 & He2).
  { intros k. unfold g2. destruct (xdir_keeps k); [|by intros [? ?]].
    destruct (attrs m2 !! k); [by eexists|by intros [? ?]]. }
  assert (filter (λ x, is_Some (g1 x)) (dir m1) = filter (λ x, is_Some (g2 x)) (dir m2))
    as ->.
  { apply (StronglySorted_unique String.le); [done|done|].
    apply NoDup_Permutation; [done|done|].
    intros k. by rewrite He1, He2, Hg. }
  apply list_omap_ext, Forall_Forall2_diag, Forall_forall. intros; apply Hg.
Qed.


(** [__setattr__] on a source, by what [self.finalized] reads once the
    attribute is stored. *)
Lemma setattr_source nm s m :
  setattr nm (VSource s) m =
  let m1 := set_attr nm (VSource s) m in
  match attrs m1 !! "finalized" with
  | None => iadd_submodules s (set_attr "finalized" (VBool false) m1)
  | Some (VBool false) => iadd_submodules s m1
  | Some VSignal => (Raise TypeError, m1)
  | Some _ => (Raise FinalizeError, m1)
  end.
Proof.
  unfold setattr, mbind, M_bind, modify, get_finalized, lift. cbv zeta.
  by destruct (attrs (set_attr nm (VSource s) m) !! "finalized") as [[| | |[]|]|].
Qed.


Lemma iadd_submodules_proxy s m :
  proxy_at "submodules" m →
  iadd_submodules s m = (Ok tt, set_attr "submodules" VProxy (add_submodule s m)).
Proof. unfold iadd_submodules. by intros [-> | ->]. Qed.

Lemma iadd_submodules_Ok s m m' :
  iadd_submodules s m = (Ok tt, m') →
  proxy_at "submodules" m ∧ m' = set_attr "submodules" VProxy (add_submodule s m).
Proof.
  unfold iadd_submodules, proxy_at.
  destruct (attrs m !! "submodules") as [[]|]; try done; intros [= <-]; auto.
Qed.

Lemma set_attr_id k v m : attrs m !! k = Some v → set_attr k v m = m.
Proof. intros Hk. destruct m. unfold set_attr. cbn in *. by rewrite insert_id. Qed.

(** On an open manager, under a name that [__setattr__] does not read back,
    the source is attached ... *)
Lemma setattr_source_open nm s m :
  is_open m → proxy_at "submodules" m →
  nm ≠ "finalized" → nm ≠ "submodules" →
  setattr nm (VSource s) m = (Ok tt, attached nm s m).
Proof.
  intros Ho Hp Hf Hs. rewrite setattr_source. cbv zeta. cbn [attrs set_attr].
  rewrite lookup_insert_ne by done. unfold attached.
  destruct Ho as [-> | Ho].
  - apply iadd_submodules_proxy. unfold proxy_at in *. cbn.
    by rewrite !lookup_insert_ne.
  - rewrite Ho. rewrite (set_attr_id "finalized").
    2:{ cbn. by rewrite lookup_insert_ne. }
    apply iadd_submodules_proxy. unfold proxy_at in *. cbn.
    by rewrite !lookup_insert_ne.
Qed.

(** ... and in no other case. *)
Lemma setattr_source_Ok nm s m m' :
  setattr nm (VSource s) m = (Ok tt, m') →
  is_open m ∧ proxy_at "submodules" m
  ∧ nm ≠ "finalized" ∧ nm ≠ "submodules" ∧ m' = attached nm s m.
Proof.
  intros Hset.
  assert (nm ≠ "finalized") as Hf.
  { intros ->. rewrite setattr_source in Hset. cbv zeta in Hset. cbn in Hset.
    by rewrite lookup_insert_eq in Hset. }
  assert (is_open m) as Ho.
  { rewrite setattr_source in Hset. cbv zeta in Hset. cbn [attrs set_attr] in Hset.
    rewrite lookup_insert_ne in Hset by done. unfold is_open.
    destruct (attrs m !! "finalized") as [[| | |[]|]|]; try done; auto. }
  assert (nm ≠ "submodules" ∧ proxy_at "submodules" m) as [Hs Hp].
  { rewrite setattr_source in Hset. cbv zeta in Hset. cbn [attrs set_attr] in Hset.
    rewrite lookup_insert_ne in Hset by done.
    assert (proxy_at "submodules" (set_attr nm (VSource s) m)) as Hp.
    { destruct Ho as [Ho|Ho]; rewrite Ho in Hset;
        apply iadd_submodules_Ok in Hset as [Hp _]; unfold proxy_at in *; cbn in *.
      - by rewrite lookup_insert_ne in Hp.
      - done. }
    unfold proxy_at in Hp. cbn in Hp.
    destruct (decide (nm = "submodules")) as [->|Hne].
    - rewrite lookup_insert_eq in Hp. by destruct Hp.
    - rewrite lookup_insert_ne in Hp by done. done. }
  split_and!; try done.
  rewrite setattr_source_open in Hset by done. congruence.
Qed.

Lemma attach_attrs_insert a l k v :
  k ∉ l.*1 → attach_attrs (<[k := v]> a) l = <[k := v]> (attach_attrs a l).
Proof.
  revert a. induction l as [|[k' s] l IH]; intros a Hk; [done|].
  rewrite fmap_cons, not_elem_of_cons in Hk. destruct Hk as [Hne Hk].
  cbn in *. rewrite insert_insert_ne by done. by apply IH.
Qed.

(** A run of attachments on an open manager, under names that
    [__setattr__] does not read back. *)
Lemma attach_all_open l m :
  is_open m → proxy_at "submodules" m →
  "finalized" ∉ l.*1 → "submodules" ∉ l.*1 → l ≠ [] →
  attach_all l m =
  (Ok tt, {| attrs := <["submodules" := VProxy]>
                        (<["finalized" := VBool false]> (attach_attrs (attrs m) l));
             submodules := submodules m ++ l.*2;
             fragment_comb := fragment_comb m |}).
Proof.
  revert m. induction l as [|[k s] l IH]; intros m Ho Hp Hf Hs Hne; [done|].
  rewrite fmap_cons, not_elem_of_cons in Hf, Hs.
  destruct Hf as [Hkf Hf], Hs as [Hks Hs]. cbn in Hkf, Hks.
  unfold attach_all in *. cbn [for_each fst snd]. unfold mbind, M_bind.
  rewrite setattr_source_open by done.
  destruct l as [|x l].
  { cbn. unfold attached. by destruct m. }
  rewrite IH; try done.
  - unfold attached. cbn [attrs submodules fragment_comb set_attr add_submodule].
    f_equal. f_equal; [|by rewrite <-app_assoc].
    rewrite !attach_attrs_insert by done.
    rewrite (insert_insert_ne _ "finalized" "submodules") by done.
    by rewrite insert_insert_eq, insert_insert_eq.
  - right. unfold attached. cbn. by rewrite lookup_insert_ne, lookup_insert_eq.
  - right. unfold attached. cbn. by rewrite lookup_insert_eq.
Qed.

(** A run of attachments that succeeds was of that kind. *)
Lemma attach_all_Ok l m m' :
  attach_all l m = (Ok tt, m') →
  l = [] ∨ (is_open m ∧ proxy_at "submodules" m
            ∧ ("finalized" ∉ l.*1) ∧ ("submodules" ∉ l.*1)).
Proof.
  revert m. induction l as [|[k s] l IH]; intros m Hrun; [by left|]. right.
  unfold attach_all in *. cbn [for_each fst snd] in Hrun.
  unfold mbind, M_bind in Hrun.
  destruct (setattr k (VSource s) m) as [[[]|e] m1] eqn:Hset; [|done].
  apply setattr_source_Ok in Hset as (Ho & Hp & Hf & Hs & ->).
  assert (("finalized" ∉ l.*1) ∧ ("submodules" ∉ l.*1)) as [Hf' Hs'].
  { destruct (IH _ Hrun) as [->|(_ & _ & ? & ?)]; [|done].
    split; apply not_elem_of_nil. }
  split_and!; try done; rewrite fmap_cons, not_elem_of_cons; by split.
Qed.

Lemma attach_attrs_Permutation a l1 l2 :
  l1 ≡ₚ l2 → NoDup l1.*1 → attach_attrs a l1 = attach_attrs a l2.
Proof.
  intros Hp. revert a. induction Hp as [|x l1 l2 _ IH|x y l|l1 l2 l3 Hp1 IH1 Hp2 IH2];
    intros a Hnd.
  - done.
  - cbn. apply IH. by apply NoDup_cons in Hnd as [_ ?].
  - cbn. f_equal. apply insert_insert_ne.
    apply NoDup_cons in Hnd as [Hy _]. set_solver.
  - rewrite IH1 by done. apply IH2. by rewrite <-Hp1.
Qed.

(** With distinct attribute names, the attachments are a dictionary laid
    over the one that was there. *)
Lemma attach_attrs_union a l :
  NoDup l.*1 → attach_attrs a l = list_to_map (prod_map id VSource <$> l) ∪ a.
Proof.
  revert a. induction l as [|[k s] l IH]; intros a Hnd.
  - cbn. by rewrite (left_id ∅ (∪)).
  - rewrite fmap_cons in Hnd. apply NoDup_cons in Hnd as [Hk Hnd].
    cbn [attach_attrs foldl fst snd]. fold (attach_attrs (<[k:=VSource s]> a) l).
    rewrite IH by done. cbn. rewrite <-insert_union_l.
    apply eq_sym, insert_union_r, not_elem_of_list_to_map_1.
    by rewrite <-list_fmap_compose.
Qed.

Lemma collect_attached l :
  Forall (λ kv : string * EventSource, xdir_keeps kv.1 = true) l →
  omap collect (prod_map id VSource <$> l) = l.*2.
Proof.
  induction 1 as [|[k s] l Hk _ IH]; [done|]. cbn in *.
  unfold collect at 1. cbn. by rewrite Hk, IH.
Qed.

(** From a new manager, attachments under distinct names that [xdir] keeps
    are what the collection finds. *)
Lemma attach_all_sources l m :
  attach_all l EventManager_init = (Ok tt, m) → NoDup l.*1 →
  Forall (λ kv, xdir_keeps kv.1 = true) l →
  sources_u m ≡ₚ l.*2.
Proof.
  intros Hrun Hnd Hkeep.
  destruct (decide (l = [])) as [->|Hne]; [by injection Hrun as <-|].
  destruct (attach_all_Ok _ _ _ Hrun) as [?|(Ho & Hp & Hf & Hs)]; [done|].
  rewrite attach_all_open in Hrun by done. injection Hrun as <-.
  set (L := prod_map id VSource <$> l).
  assert (L.*1 = l.*1) as HL.
  { unfold L. rewrite <-list_fmap_compose. by apply list_fmap_ext. }
  rewrite (sources_u_ext _ {| attrs := list_to_map L; submodules := [];
                              fragment_comb := [] |}).
  - rewrite sources_u_Permutation. cbn [attrs].
    rewrite map_to_list_to_map by by rewrite HL.
    unfold L. by rewrite collect_attached.
  - intros k. cbn [attrs]. rewrite attach_attrs_union by done. fold L.
    destruct (decide (k = "submodules")) as [->|Hk1].
    { rewrite lookup_insert_eq, (not_elem_of_list_to_map_1 L); [done|]. by rewrite HL. }
    rewrite lookup_insert_ne by done.
    destruct (decide (k = "finalized")) as [->|Hk2].
    { rewrite lookup_insert_eq, (not_elem_of_list_to_map_1 L); [done|]. by rewrite HL. }
    rewrite lookup_insert_ne by done. rewrite lookup_union.
    destruct (list_to_map L !! k) as [v|].
    { by destruct (<["irq":=VSignal]> (∅ : gmap string value) !! k). }
    rewrite (left_id None _).
    destruct (decide (k = "irq")) as [->|Hk3].
    + by rewrite lookup_insert_eq.
    + by rewrite lookup_insert_ne, lookup_empty.
Qed.

Lemma rank_Permutation s l1 l2 : l1 ≡ₚ l2 → rank s l1 = rank s l2.
Proof. unfold rank. by intros ->. Qed.

(** Under [finalized] a source always reads as a set flag, and under
    [submodules] it is the thing [+=] is applied to. *)
Lemma setattr_source_as_finalized s m :
  setattr "finalized" (VSource s) m
  = (Raise FinalizeError, set_attr "finalized" (VSource s) m).
Proof. rewrite setattr_source. cbv zeta. cbn. by rewrite lookup_insert_eq. Qed.


(** ** Every run of do_finalize *)

Lemma for_each_wire_loop st pd l m :
  proxy_at "comb" m →
  for_each l (wire st pd) m
  = ((wire_loop st pd l).1, emit_opt (wire_loop st pd l).2 m).
Proof.
  revert m. induction l as [|isrc l IH]; intros m Hp; cbn; [done|].
  unfold mbind, M_bind, wire at 1, lift.
  destruct (wire_stmts st pd isrc) as [stmts|e] eqn:Hw; cbn; [|done].
  unfold mbind, M_bind. rewrite iadd_comb_proxy by done.
  rewrite IH by apply proxy_at_emit. rewrite emit_opt_emit.
  by destruct (wire_stmts_cons _ _ _ _ Hw) as (x & rest & ->).
Qed.

Lemma for_each_wire_stuck st pd l m :
  ¬ proxy_at "comb" m →
  for_each l (wire st pd) m = (wire_stuck st pd l, m).
Proof.
  intros Hp. destruct l as [|isrc l]; [done|]. cbn.
  unfold mbind, M_bind, wire at 1, lift.
  destruct (wire_stmts st pd isrc) as [stmts|e]; [|done].
  unfold mbind, M_bind. by rewrite iadd_comb_other.
Qed.

Lemma wire_loop_nonempty st pd isrc l :
  (wire_loop st pd (isrc :: l)).1 = Ok tt →
  ∃ x rest, (wire_loop st pd (isrc :: l)).2 = x :: rest.
Proof.
  cbn. destruct (wire_stmts st pd isrc) as [stmts|e] eqn:Hw; [|done].
  destruct (wire_stmts_cons _ _ _ _ Hw) as (x & rest & ->). cbn. eauto.
Qed.

(** [do_finalize] on a manager that collects a source. *)
Lemma do_finalize_run m :
  let sources := sorted duid (sources_u m) in
  let o := outcome (bool_decide (proxy_at "comb" m))
                   (bool_decide (attrs m !! "irq" = Some VSignal))
                   (finalize_regs sources m).1.1 (finalize_regs sources m).1.2 sources in
  sources ≠ [] →
  do_finalize m = (o.1, emit_opt o.2 (finalize_regs sources m).2).
Proof.
  cbv zeta. intros Hne. rewrite do_finalize_unfold. cbv zeta. unfold outcome.
  destruct (sorted duid (sources_u m)) as [|s l] eqn:Hs; [done|].
  destruct (finalize_regs (s :: l) m) as [[st pd] m1] eqn:Hregs. cbn [fst snd].
  assert (∀ k, k ≠ "status" → k ≠ "pending" → k ≠ "enable" →
               attrs m1 !! k = attrs m !! k) as Hframe.
  { intros k ???. replace m1 with (finalize_regs (s :: l) m).2 by by rewrite Hregs.
    by apply finalize_regs_lookup. }
  assert (proxy_at "comb" m1 ↔ proxy_at "comb" m) as Hpm.
  { unfold proxy_at. by rewrite Hframe. }
  unfold mbind, M_bind.
  destruct (decide (proxy_at "comb" m)) as [Hp|Hp].
  - rewrite bool_decide_true by done.
    rewrite for_each_wire_loop by by apply Hpm.
    destruct (wire_loop st pd (enumerate (s :: l))) as [[[]|e] X] eqn:Hloop;
      cbn [fst snd]; [|done].
    destruct (wire_loop_nonempty st pd (0, s) (imap (pair ∘ S) l)) as (x & rest & HX).
    { change ((0, s) :: imap (pair ∘ S) l) with (enumerate (s :: l)). by rewrite Hloop. }
    change ((0, s) :: imap (pair ∘ S) l) with (enumerate (s :: l)) in HX.
    rewrite Hloop in HX. cbn in HX. subst X. rewrite emit_opt_cons.
    destruct (decide (attrs m !! "irq" = Some VSignal)) as [Hirq|Hirq].
    + rewrite bool_decide_true by done.
      rewrite getattr_irq_eq_signal by by rewrite emit_lookup, Hframe.
      rewrite iadd_comb_proxy by apply proxy_at_emit.
      rewrite emit_emit. unfold irq_stmt. cbn [length fst snd].
      by replace (S (length l) - 1) with (length l) by lia.
    + rewrite bool_decide_false by done.
      rewrite getattr_irq_eq_other; [done|]. by rewrite emit_lookup, Hframe.
  - rewrite bool_decide_false by done.
    rewrite for_each_wire_stuck by by rewrite Hpm.
    destruct (wire_stuck st pd (enumerate (s :: l))) as [[]|e] eqn:Hstuck; [|done].
    cbn in Hstuck. by destruct (wire_stmts st pd (0, s)).
Qed.

Lemma sorted_nil_iff {A} (key : A → Z) l : sorted key l = [] ↔ l = [].
Proof.
  split; [|by intros ->]. intros Hs.
  apply Permutation_nil_r. by rewrite <-Hs, sorted_Permutation.
Qed.

(** With no source collected, [do_finalize] stops at the read of [desc], after
    loops that never ran, and has changed nothing. *)
Lemma do_finalize_no_sources m :
  sources_u m = [] → do_finalize m = (Raise UnboundLocalError, m).
Proof. intros Hs. rewrite do_finalize_unfold. cbv zeta. by rewrite Hs. Qed.




(** The outcome of [do_finalize] is decided by the attribute dictionary and
    the statements already emitted: the submodule list plays no part in
    it. *)
Lemma do_finalize_frame m1 m2 :
  attrs m1 = attrs m2 → fragment_comb m1 = fragment_comb m2 →
  (do_finalize m1).1 = (do_finalize m2).1
  ∧ attrs (do_finalize m1).2 = attrs (do_finalize m2).2
  ∧ fragment_comb (do_finalize m1).2 = fragment_comb (do_finalize m2).2.
Proof.
  destruct m1 as [a1 s1 c1], m2 as [a2 s2 c2]. cbn. intros <- <-.
  set (m1 := {| attrs := a1; submodules := s1; fragment_comb := c1 |}).
  set (m2 := {| attrs := a1; submodules := s2; fragment_comb := c1 |}).
  destruct (decide (sources_u m2 = [])) as [Hnil|Hne].
  { by rewrite (do_finalize_no_sources m1), (do_finalize_no_sources m2). }
  assert (sorted duid (sources_u m2) ≠ []) as Hne' by by rewrite sorted_nil_iff.
  rewrite (do_finalize_run m2 Hne'), (do_finalize_run m1 Hne'). cbn [fst snd].
  split; [done|]. by destruct (outcome _ _ _ _ _).2.
Qed.



Lemma packed_names (F : nat → EventSource → CSRField) L :
  (∀ j t, f_name (F j t) = field_name j t) →
  f_name <$> pack 0 (imap F L) = imap field_name L.
Proof. intros HF. rewrite pack_names, fmap_imap. apply imap_ext. intros; apply HF. Qed.

Lemma wire_stmts_is_Ok L n d1 d2 i s :
  L !! i = Some s → named s →
  ∃ stmts, wire_stmts (CSRStatus n d1 (imap status_field L))
                      (CSRStatus n d2 (imap pending_field L)) (i, s) = Ok stmts.
Proof.
  intros Hi [nm Hnm].
  assert (nm ∈ imap field_name L) as Hin.
  { apply elem_of_lookup_imap. exists i, s. split; [|done].
    unfold field_name. by rewrite Hnm. }
  destruct (lookup_field_is_Some nm (pack 0 (imap status_field L))) as [f1 Hf1].
  { by rewrite (packed_names _ _ status_field_name). }
  destruct (lookup_field_is_Some nm (pack 0 (imap pending_field L))) as [f2 Hf2].
  { by rewrite (packed_names _ _ pending_field_name). }
  unfold wire_stmts, getattr_fields. cbn [snd fst CSRStatus c_fields].
  rewrite Hnm, Hf1, Hf2. cbn. by eexists.
Qed.

Lemma wire_loop_unnamed st pd l :
  (∀ isrc, isrc ∈ l → named isrc.2 → ∃ stmts, wire_stmts st pd isrc = Ok stmts) →
  Exists (λ isrc, name isrc.2 = None) l →
  (wire_loop st pd l).1 = Raise TypeError.
Proof.
  intros Hok Hex. induction l as [|isrc l IH]; [by apply Exists_nil in Hex|].
  cbn. destruct (name isrc.2) as [nm|] eqn:Hnm.
  - destruct (Hok isrc) as [stmts ->]; [by left|by eexists|]. cbn.
    apply IH.
    + intros x Hx. apply Hok. by right.
    + apply Exists_cons in Hex as [Hex|Hex]; [congruence|done].
  - by rewrite wire_stmts_unnamed.
Qed.

Lemma wire_stuck_TypeError st pd isrc l :
  (named isrc.2 → ∃ stmts, wire_stmts st pd isrc = Ok stmts) →
  wire_stuck st pd (isrc :: l) = Raise TypeError.
Proof.
  intros Hok. cbn. destruct (name isrc.2) as [nm|] eqn:Hnm.
  - destruct Hok as [stmts ->]; [by eexists|done].
  - by rewrite wire_stmts_unnamed.
Qed.

(** A collected source without a name makes [do_finalize] raise [TypeError]. *)
Lemma do_finalize_unnamed m s :
  s ∈ sources_u m → name s = None → (do_finalize m).1 = Raise TypeError.
Proof.
  intros Hs Hnone.
  assert (sorted duid (sources_u m) ≠ []) as Hne.
  { rewrite sorted_nil_iff. intros Hnil. rewrite Hnil in Hs. by apply elem_of_nil in Hs. }
  rewrite (do_finalize_run m Hne). apply (elem_of_sorted duid) in Hs.
  unfold finalize_regs, outcome. cbn [fst snd].
  destruct (bool_decide (proxy_at "comb" m)).
  - rewrite wire_loop_unnamed; [done| |].
    + intros [i x] Hix%elem_of_enumerate Hn. by apply wire_stmts_is_Ok.
    + apply Exists_exists. apply list_elem_of_lookup in Hs as [i Hi].
      exists (i, s). split; [by apply elem_of_enumerate|done].
  - cbn [fst]. destruct (sorted duid (sources_u m)) as [|s0 l] eqn:Hsorted; [done|].
    apply wire_stuck_TypeError. intros Hn. by apply wire_stmts_is_Ok.
Qed.

(** The state [do_finalize] leaves once it has got past the annotation
    loops: the three registers are assigned, whatever the wiring loop does. *)
Lemma do_finalize_state m :
  sorted duid (sources_u m) ≠ [] →
  ∃ X, (do_finalize m).2 = emit_opt X (finalize_regs (sorted duid (sources_u m)) m).2.
Proof. intros Hne. rewrite (do_finalize_run m Hne). by eexists. Qed.

(** [do_finalize] leaves the submodule list alone. *)
Lemma do_finalize_submodules m : submodules (do_finalize m).2 = submodules m.
Proof.
  destruct (decide (sources_u m = [])) as [Hnil|Hne].
  { by rewrite do_finalize_no_sources. }
  destruct (do_finalize_state m) as [X ->]; [by rewrite sorted_nil_iff|].
  by destruct X.
Qed.

Lemma bit_index_rank m m' s :
  finalizes m m' → s ∈ sources_u m →
  bit_index m' "status" s = Some (rank s (sources_u m))
  ∧ bit_index m' "pending" s = Some (rank s (sources_u m))
  ∧ bit_index m' "enable" s = Some (rank s (sources_u m)).
Proof.
  intros Hfin Hs. pose proof Hfin as (_ & Hd & _).
  pose proof (sorted_lookup_rank duid _ s Hd Hs) as Hi. fold (rank s (sources_u m)) in Hi.
  apply finalizes_inv in Hfin as (_ & Hn & _ & Hnm & ->).
  assert (is_Some (name s)) as [nm Hs_nm].
  { rewrite Forall_forall in Hn. apply Hn. by apply elem_of_sorted. }
  unfold bit_index.
  destruct (finalize_regs_attr_emit (sorted duid (sources_u m)) m
    (wires (enumerate (sorted duid (sources_u m)))
     ++ [irq_stmt (length (sorted duid (sources_u m)))])) as (-> & -> & ->).
  unfold getattr_fields. cbn [CSRStatus CSRStorage c_fields]. rewrite Hs_nm.
  destruct (packed_lookup status_field _ _ _ nm
              status_field_name (unit_fields_status _) Hn Hnm Hi Hs_nm) as (f1 & -> & ->).
  destruct (packed_lookup pending_field _ _ _ nm
              pending_field_name (unit_fields_pending _) Hn Hnm Hi Hs_nm) as (f2 & -> & ->).
  destruct (packed_lookup enable_field _ _ _ nm
              enable_field_name (unit_fields_enable _) Hn Hnm Hi Hs_nm) as (f3 & -> & ->).
  done.
Qed.

Lemma rank_lookup m m' s :
  finalizes m m' → s ∈ sources_u m →
  sorted duid (sources_u m) !! rank s (sources_u m) = Some s.
Proof. intros (_ & Hd & _) Hs. by apply (sorted_lookup_rank duid). Qed.

(** ** The settled values are a fixed point *)
Section stable.
Context (sources : list EventSource).
Implicit Types (rd wr : signal → bool).

Lemma design_skip rd wr t :
  (∀ r i, r ≠ r_enable → i < length sources → t ≠ csr_status r i) →
  (∀ i s, sources !! i = Some s →
     t ≠ field r_status i ∧ t ≠ field r_pending i ∧ t ≠ src (duid s) clear) →
  t ≠ irq →
  exec_all rd (design sources) wr t = wr t.
Proof.
  intros H1 H2 H3. apply exec_all_skip. unfold design.
  assert (∀ r, r ≠ r_enable →
            Forall (λ st, t ∉ targets st) (csr_bits r (length sources))) as Hb.
  { intros r Hr. apply Forall_fmap, Forall_forall. intros i [_ Hi]%elem_of_seq. cbn.
    intros ->%list_elem_of_singleton. by eapply H1. }
  rewrite !Forall_app. split_and!; [by apply Hb|by apply Hb| |by apply irq_stmt_skip].
  apply wires_skip. intros i s His%elem_of_enumerate. by apply H2.
Qed.

End stable.

(** Three passes reach a fixed point: one more pass changes no signal. *)
Lemma settle_stable m m' inp t :
  finalizes m m' → comb_pass m' inp (settle m' inp) t = settle m' inp t.
Proof.
  intros Hfin. unfold comb_pass. rewrite (netlist_finalizes m m' Hfin).
  set (sources := sorted duid (sources_u m)).
  pose proof (sources_NoDup m m' Hfin) as Hd. fold sources in Hd.
  assert (∀ u, (∀ rd wr, exec_all rd (design sources) wr u = wr u) →
            exec_all (settle m' inp) (design sources) (base inp) u = settle m' inp u)
    as Hskip.
  { intros u Hu. rewrite Hu, (settle_unfold m m' Hfin). fold sources. by rewrite Hu. }
  destruct t as [d s|r off|r i|r i|r|r i|].
  - destruct s; try (apply Hskip; intros; by apply pass_skip).
    destruct (decide (d ∈ duid <$> sources)) as [Hin|Hout].
    + apply list_elem_of_fmap in Hin as (s & -> & Hs).
      apply list_elem_of_lookup in Hs as [i Hi].
      rewrite (pass_clear sources _ _ i s Hd Hi).
      rewrite (settle_re m m' Hfin), (settle_clear m m' Hfin inp i s Hi).
      destruct (settle_field m m' Hfin inp i s Hi) as [_ ->].
      cbn. by rewrite orb_false_r.
    + apply Hskip. intros. apply design_skip; try done.
      intros i s Hi. split_and!; try done. intros [= ->]. apply Hout.
      apply list_elem_of_fmap_2. by eapply list_elem_of_lookup_2.
  - destruct (sources !! off) as [s|] eqn:Hoff.
    + destruct (pass_field sources (settle m' inp) (base inp) off s Hoff) as [H1 H2].
      destruct (settle_field m m' Hfin inp off s Hoff) as [H3 H4].
      destruct r.
      * by rewrite H1, H3, (settle_source_status m m' Hfin).
      * by rewrite H2, H4, (settle_source_pending m m' Hfin).
      * apply Hskip. intros. apply design_skip; try done.
    + apply Hskip. intros. apply design_skip; try done.
      intros i s Hi. split_and!; try done; intros [= -> ->]; congruence.
  - destruct (sources !! i) as [s|] eqn:Hi.
    + assert (i < length sources) by by eapply lookup_lt_Some.
      destruct (settle_field m m' Hfin inp i s Hi) as [H3 H4].
      destruct (settle_csr_status m m' Hfin inp i s Hi) as [H5 H6].
      destruct r.
      * by rewrite pass_csr_status, H3, H5.
      * by rewrite pass_csr_status, H4, H6.
      * apply Hskip. intros. apply design_skip; try done.
        by intros r j Hr _ [= <- _].
    + apply Hskip. intros. apply design_skip; try done.
      intros r' j _ Hj [= -> ->]. apply lookup_ge_None in Hi. lia.
  - apply Hskip. intros. by apply pass_skip.
  - apply Hskip. intros. by apply pass_skip.
  - apply Hskip. intros. by apply pass_skip.
  - rewrite pass_irq by apply (sources_nonempty m m' Hfin).
    by rewrite (settle_irq m m' Hfin).
Qed.

(** ** Creation ids *)

(** A source takes the counter as its creation id, and its constructor
    leaves the counter 12 (Pulse), 15 (Process) or 9 (Level) higher: one id
    for the source, eight for its four signals, and those of the values in
    its statements. *)
Lemma EventSource_new_ids k nm descr traced n :
  duid (EventSource_new k nm descr traced n).1 = n
  ∧ (EventSource_new k nm descr traced n).2
    = (n + match k with Pulse => 12 | Process => 15 | Level => 9 end)%Z.
Proof.
  unfold EventSource_new, EventSource_init, body_init, Signal_init, Constant_init,
    Operator_init, DUID_init.
  destruct k; cbn; split; lia.
Qed.

(** Sources created one after the other get increasing creation ids, hence
    pairwise distinct ones. *)
Lemma create_ids specs n :
  Sorted (key_le duid) (create specs n).1
  ∧ Forall (λ s, (n ≤ duid s)%Z) (create specs n).1
  ∧ NoDup (duid <$> (create specs n).1).
Proof.
  revert n. induction specs as [|[[k nm] descr] rest IH]; intros n.
  - cbn. split_and!; constructor.
  - cbn [create].
    pose proof (EventSource_new_ids k nm descr None n) as [Hd Hn].
    destruct (EventSource_new k nm descr None n) as [s u]. cbn in Hd, Hn.
    destruct (IH u) as (Hs & Hge & Hnd).
    destruct (create rest u) as [l u']. cbn in *.
    assert (n < u)%Z as Hlt by (destruct k; lia).
    split_and!.
    + constructor; [done|].
      destruct Hge as [|t l' Ht _]; constructor. unfold key_le. lia.
    + constructor; [lia|].
      eapply Forall_impl; [done|]. cbn. intros; lia.
    + constructor; [|done]. intros (t & Ht & Hin)%list_elem_of_fmap.
      rewrite Forall_forall in Hge. specialize (Hge t Hin). lia.
Qed.

Lemma create_NoDup specs n : NoDup (duid <$> (create specs n).1).
Proof. apply create_ids. Qed.

(** ** The claims about the manager *)

Lemma example_finalizes : finalizes example_open example_final.
Proof.
  split_and!.
  - reflexivity.
  - apply (bool_decide_unpack _). vm_compute. exact I.
  - apply (bool_decide_unpack _). vm_compute. exact I.
  - vm_compute. reflexivity.
Defined.

(** C1: bit ordering.  Take a manager whose finalization succeeds, the
    sources it collects being distinct objects with distinct names.  Every
    collected source [s] gets, in the status, the pending and the enable
    register, the bit whose index is the rank of its creation id among the
    collected sources (bit 0 for the smallest id), and the status and
    pending register bits at that index carry the source's status and
    pending outputs.  The collected sources are the attached ones: on a new
    manager, a run of attachments that succeeds, under distinct attribute
    names that [xdir] keeps, leaves exactly the attached sources to be
    collected, so the rank is the rank among the attached sources.  The
    assignment does not depend on the order of attachment: when a run of
    attachments under distinct attribute names succeeds, so does every
    permutation of it, and finalization then gives the same result, the
    same registers and the same emitted logic. *)
Theorem C1_bit_ordering :
  (∀ m m' s, finalizes m m' → s ∈ sources_u m →
     let i := rank s (sources_u m) in
     bit_index m' "status" s = Some i
     ∧ bit_index m' "pending" s = Some i
     ∧ bit_index m' "enable" s = Some i
     ∧ ∀ inp, settle m' inp (csr_status r_status i) = in_status inp (duid s)
            ∧ settle m' inp (csr_status r_pending i) = in_pending inp (duid s))
  ∧ (∀ l m, attach_all l EventManager_init = (Ok tt, m) → NoDup l.*1 →
       Forall (λ kv, xdir_keeps kv.1 = true) l →
       sources_u m ≡ₚ l.*2 ∧ ∀ s, rank s (sources_u m) = rank s l.*2)
  ∧ (∀ m0 l1 l2, l1 ≡ₚ l2 → NoDup l1.*1 → (attach_all l1 m0).1 = Ok tt →
     let r1 := (attach_all l1;; do_finalize) m0 in
     let r2 := (attach_all l2;; do_finalize) m0 in
     (attach_all l2 m0).1 = Ok tt
     ∧ r1.1 = r2.1 ∧ attrs r1.2 = attrs r2.2
     ∧ fragment_comb r1.2 = fragment_comb r2.2).
Proof.
  split_and!.
  - intros m m' s Hfin Hs. cbv zeta.
    destruct (bit_index_rank m m' s Hfin Hs) as (? & ? & ?).
    split_and!; try done. intros inp.
    apply (settle_csr_status m m' Hfin). by eapply rank_lookup.
  - intros l m Hrun Hnd Hkeep.
    pose proof (attach_all_sources l m Hrun Hnd Hkeep) as Hp.
    split; [done|]. intros s. by apply rank_Permutation.
  - intros m0 l1 l2 Hp Hnd Hrun. cbv zeta. unfold mbind, M_bind.
    destruct (decide (l1 = [])) as [->|Hne1].
    { apply Permutation_nil_l in Hp. subst l2. by split_and!. }
    destruct (attach_all l1 m0) as [r m1] eqn:Hrun1. cbn in Hrun. subst r.
    destruct (attach_all_Ok _ _ _ Hrun1) as [?|(Ho & Hop & Hf & Hs)]; [done|].
    assert (l2 ≠ []) as Hne2.
    { intros ->. by apply Permutation_nil_r in Hp. }
    rewrite attach_all_open in Hrun1 by done. injection Hrun1 as <-.
    rewrite (attach_all_open l2) by (by rewrite <-?Hp).
    split; [done|].
    apply do_finalize_frame; cbn; [|done].
    by rewrite (attach_attrs_Permutation _ l1 l2).
Qed.

Lemma C1_witness :
  (bit_index example_final "status" dma_done = Some 2
   ∧ bit_index example_final "pending" dma_done = Some 2
   ∧ bit_index example_final "enable" dma_done = Some 2)
  ∧ rank dma_done (sources_u example_open) = rank dma_done [dma_done; uart_rx; dma_slot]
  ∧ fragment_comb
      ((attach_all [("done", dma_done); ("rx", uart_rx); ("slot", dma_slot)];;
        do_finalize) EventManager_init).2
    = fragment_comb
      ((attach_all [("slot", dma_slot); ("rx", uart_rx); ("done", dma_done)];;
        do_finalize) EventManager_init).2.
Proof.
  destruct C1_bit_ordering as (HA & HB & HC). split; [|split].
  - destruct (HA example_open example_final dma_done example_finalizes)
      as (H1 & H2 & H3 & _).
    + apply (bool_decide_unpack _). vm_compute. exact I.
    + split_and!; [exact H1|exact H2|exact H3].
  - apply (HB [("done", dma_done); ("rx", uart_rx); ("slot", dma_slot)] example_open).
    + vm_compute. reflexivity.
    + apply (bool_decide_unpack _). vm_compute. exact I.
    + apply (bool_decide_unpack _). vm_compute. exact I.
  - apply (HC EventManager_init).
    + apply (bool_decide_unpack _). vm_compute. exact I.
    + apply (bool_decide_unpack _). vm_compute. exact I.
    + vm_compute. reflexivity.
Defined.

Lemma rank_of_lookup m m' i s :
  finalizes m m' → sorted duid (sources_u m) !! i = Some s →
  s ∈ sources_u m ∧ rank s (sources_u m) = i.
Proof.
  intros Hfin Hi.
  assert (s ∈ sources_u m) as Hs.
  { apply (elem_of_sorted duid). by eapply list_elem_of_lookup_2. }
  split; [done|].
  pose proof (rank_lookup m m' s Hfin Hs) as Hr.
  destruct Hfin as (_ & Hd & _).
  eapply NoDup_lookup; [|done..].
  apply (NoDup_fmap_1 duid). by rewrite sorted_Permutation.
Qed.

(** C2, as amended: interrupt aggregation for a manager whose finalization
    succeeded (it has at least one source).  The irq output is the OR, over
    the bit positions below the number of sources, of pending bit AND
    enable bit; so irq is 1 exactly when some source has both its pending
    bit and its enable bit set, that is when some source is pending and the
    enable register has a 1 at that source's bit. *)
Theorem C2_irq_aggregation m m' inp :
  finalizes m m' →
  settle m' inp irq =
    existsb (λ i, settle m' inp (csr_status r_pending i)
                  && settle m' inp (csr_storage r_enable i))
            (seq 0 (length (sources_u m)))
  ∧ (settle m' inp irq = true ↔
     ∃ s, s ∈ sources_u m
          ∧ settle m' inp (csr_status r_pending (rank s (sources_u m))) = true
          ∧ settle m' inp (csr_storage r_enable (rank s (sources_u m))) = true)
  ∧ (settle m' inp irq = true ↔
     ∃ s, s ∈ sources_u m
          ∧ in_pending inp (duid s) = true
          ∧ Z.testbit (in_storage inp) (Z.of_nat (rank s (sources_u m))) = true).
Proof.
  intros Hfin.
  pose proof (settle_irq m m' Hfin inp) as Hirq. cbv zeta in Hirq.
  rewrite sorted_length in Hirq.
  assert (settle m' inp irq = true ↔
     ∃ s, s ∈ sources_u m
          ∧ settle m' inp (csr_status r_pending (rank s (sources_u m))) = true
          ∧ settle m' inp (csr_storage r_enable (rank s (sources_u m))) = true) as Hiff.
  { rewrite Hirq, existsb_true. split.
    - intros (i & [_ Hi]%elem_of_seq & [H1 H2]%andb_true_iff). cbn in Hi.
      rewrite <-(sorted_length duid) in Hi.
      destruct (lookup_lt_is_Some_2 _ i Hi) as [s Hs].
      destruct (rank_of_lookup m m' i s Hfin Hs) as [? <-]. eauto.
    - intros (s & Hs & H1 & H2). exists (rank s (sources_u m)). split.
      + apply elem_of_seq. split; [lia|]. cbn. rewrite <-(sorted_length duid).
        eapply lookup_lt_Some. by eapply rank_lookup.
      + by rewrite H1, H2. }
  split_and!; [done|done|].
  rewrite Hiff. apply exist_proper. intros s. split.
  - intros (Hs & H1 & H2). split; [done|].
    destruct (settle_csr_status m m' Hfin inp _ s (rank_lookup m m' s Hfin Hs)) as [_ <-].
    by rewrite <-(settle_storage m m' Hfin).
  - intros (Hs & H1 & H2). split; [done|].
    destruct (settle_csr_status m m' Hfin inp _ s (rank_lookup m m' s Hfin Hs)) as [_ ->].
    by rewrite (settle_storage m m' Hfin).
Qed.

Lemma C2_witness : settle example_final example_inputs irq = true.
Proof.
  apply (C2_irq_aggregation example_open example_final example_inputs example_finalizes).
  exists dma_slot. split_and!.
  - apply (bool_decide_unpack _). vm_compute. exact I.
  - reflexivity.
  - reflexivity.
Defined.

(** With no source attached, [do_finalize] does not finalize: the read of
    [desc] on line 180 raises, and the reduction of the empty list of irq
    terms would raise as well. *)
Lemma C2_counterexample :
  sources_u EventManager_init = []
  ∧ (do_finalize EventManager_init).1 = Raise UnboundLocalError
  ∧ (¬ ∃ m', do_finalize EventManager_init = (Ok tt, m'))
  ∧ reduce Or (irq_term <$> seq 0 0) = Raise TypeError.
Proof.
  split_and!; try (vm_compute; reflexivity).
  intros [m' Hm'].
  assert ((do_finalize EventManager_init).1 = Raise UnboundLocalError) as H
    by (vm_compute; reflexivity).
  rewrite Hm' in H. discriminate H.
Qed.

(** C3: the code at the failing inputs.  [uart_rx] sits at bit 0 of the
    pending register.  A write of the value 0 (bit 0 clear) while [uart_rx]
    is pending asserts its clear line; a write of the value 1 (bit 0 set)
    while it is not pending does not. *)
Theorem C3_clear_ignores_written_data :
  bit_index example_final "pending" uart_rx = Some 0
  ∧ in_re write_all_zero = true
  ∧ Z.testbit (in_r write_all_zero) 0 = false
  ∧ settle example_final write_all_zero (src (duid uart_rx) clear) = true
  ∧ in_re write_bit0_idle = true
  ∧ Z.testbit (in_r write_bit0_idle) 0 = true
  ∧ settle example_final write_bit0_idle (src (duid uart_rx) clear) = false.
Proof. split_and!; vm_compute; reflexivity. Qed.







(** C9: the code at the failing input, a manager holding one source without a
    name.  The three registers get a field with the positional name
    [event0], then the wiring loop looks the field up under the source's
    name, which is [None]: [do_finalize] raises [TypeError] and no logic is
    emitted. *)
Theorem C9_unnamed_source_breaks_finalize :
  sources_u unnamed_open = [unnamed]
  ∧ (do_finalize unnamed_open).1 = Raise TypeError
  ∧ f_name <$> (from_option c_fields [] (csr_attr (do_finalize unnamed_open).2 "status"))
    = ["event0"]
  ∧ f_name <$> (from_option c_fields [] (csr_attr (do_finalize unnamed_open).2 "pending"))
    = ["event0"]
  ∧ f_name <$> (from_option c_fields [] (csr_attr (do_finalize unnamed_open).2 "enable"))
    = ["event0"]
  ∧ fragment_comb (do_finalize unnamed_open).2 = [].
Proof. split_and!; vm_compute; reflexivity. Qed.

(** In general no finalization succeeds with an unnamed source among the
    collected ones. *)
Lemma do_finalize_needs_names m m' s :
  do_finalize m = (Ok tt, m') → s ∈ sources_u m → is_Some (name s).
Proof.
  intros Hfin Hs. apply do_finalize_Ok_inv in Hfin as [_ Hn].
  rewrite Forall_forall in Hn. apply Hn. by apply elem_of_sorted.
Qed.

(** C10: what clears a source.  In a manager finalized as above, the clear
    line of every collected source is the write strobe of the pending
    register ANDed with that source's own pending output; the data being
    written plays no part.  So a write, whatever its data, asserts clear on
    exactly the sources that are pending. *)
Theorem C10_clear_follows_pending m m' inp s :
  finalizes m m' → s ∈ sources_u m →
  settle m' inp (src (duid s) clear) = in_re inp && in_pending inp (duid s)
  ∧ (∀ data, settle m' (set_r data inp) (src (duid s) clear)
             = settle m' inp (src (duid s) clear)).
Proof.
  intros Hfin Hs. pose proof (rank_lookup m m' s Hfin Hs) as Hi.
  split; [by eapply settle_clear|].
  intros data. by rewrite !(settle_clear m m' Hfin _ _ s Hi).
Qed.

Lemma C10_witness :
  settle example_final write_all_zero (src 0 clear) = true
  ∧ settle example_final write_all_zero (src 1 clear) = false.
Proof.
  split.
  - refine (proj1 (C10_clear_follows_pending example_open example_final
                     write_all_zero uart_rx example_finalizes _)).
    apply (bool_decide_unpack _). vm_compute. exact I.
  - refine (proj1 (C10_clear_follows_pending example_open example_final
                     write_all_zero dma_slot example_finalizes _)).
    apply (bool_decide_unpack _). vm_compute. exact I.
Defined.

(** * Further properties *)

(** ** SharedIRQ *)



(** ** Sources from reset *)

Lemma process_pending_next inp t :
  src_at EventSourceProcess inp (S (S t)) pending =
  (if (inp t).1 && negb (inp (S t)).1 then true
   else if (inp (S t)).2 then false
   else src_at EventSourceProcess inp (S t) pending).
Proof.
  unfold src_at. rewrite !process_outputs. cbn [src_run src_base].
  rewrite !process_tick. cbn. by destruct (inp t).1, (inp (S t)).1.
Qed.

Lemma process_pending_start inp :
  src_at EventSourceProcess inp 0 pending = false
  ∧ src_at EventSourceProcess inp 1 pending = false.
Proof.
  unfold src_at. rewrite !process_outputs. cbn [src_run src_base].
  rewrite !process_tick. cbn. split; [done|]. by destruct (inp 0).1, (inp 0).2.
Qed.

(** From reset, a Pulse source reports nothing as long as its trigger has
    never been asserted, whatever the clear line did. *)
Theorem pulse_quiet_until_trigger inp t :
  (∀ j, j < t → (inp j).1 = false) →
  src_at EventSourcePulse inp t pending = false.
Proof.
  induction t as [|t IH]; intros Hq; [done|].
  rewrite pulse_pending_next, (Hq t) by lia.
  destruct (inp t).2; [done|]. apply IH. intros; apply Hq; lia.
Qed.

(** From reset, a Process source reports nothing as long as its trigger has
    made no transition from 1 to 0: a trigger that is held, or that only
    rises, sets nothing. *)
Theorem process_needs_falling_edge inp t :
  (∀ j, S j < t → ¬ ((inp j).1 = true ∧ (inp (S j)).1 = false)) →
  src_at EventSourceProcess inp t pending = false.
Proof.
  induction t as [|t IH]; intros Hq; [apply process_pending_start|].
  destruct t as [|j]; [apply process_pending_start|].
  rewrite process_pending_next.
  destruct ((inp j).1 && negb (inp (S j)).1) eqn:Hedge.
  - apply andb_true_iff in Hedge as [H1 H2%negb_true_iff].
    destruct (Hq j); [lia|done].
  - destruct (inp (S j)).2; [done|]. apply IH. intros; apply Hq; lia.
Qed.

(** ** The settled values are the only fixed point *)

Section fixed_point.
Context (sources : list EventSource) (b env1 env2 : signal → bool).
Context (Hd : NoDup (duid <$> sources)) (Hne : sources ≠ []).
Context (H1 : ∀ t, exec_all env1 (design sources) b t = env1 t).
Context (H2 : ∀ t, exec_all env2 (design sources) b t = env2 t).

Lemma fixed_skip t :
  (∀ rd wr, exec_all rd (design sources) wr t = wr t) → env1 t = env2 t.
Proof. intros Hs. by rewrite <-H1, <-H2, !Hs. Qed.

Lemma fixed_field r off : env1 (field r off) = env2 (field r off).
Proof.
  destruct (sources !! off) as [s|] eqn:Hoff.
  - destruct (pass_field sources env1 b off s Hoff) as [Ha Hb].
    destruct (pass_field sources env2 b off s Hoff) as [Ha' Hb'].
    assert (∀ x, env1 (src (duid s) x) = env2 (src (duid s) x) ∨ x = clear) as Hsrc.
    { intros x. destruct x; auto; left; apply fixed_skip; intros; by apply pass_skip. }
    destruct r.
    + rewrite <-H1, <-H2, Ha, Ha'. by destruct (Hsrc status).
    + rewrite <-H1, <-H2, Hb, Hb'. by destruct (Hsrc pending).
    + apply fixed_skip. intros. by apply design_skip.
  - apply fixed_skip. intros. apply design_skip; try done.
    intros i s Hi. split_and!; try done; intros [= -> ->]; congruence.
Qed.

Lemma fixed_point_agree t : env1 t = env2 t.
Proof.
  destruct t as [d s|r off|r i|r i|r|r i|].
  - destruct s; try (apply fixed_skip; intros; by apply pass_skip).
    destruct (decide (d ∈ duid <$> sources)) as [Hin|Hout].
    + apply list_elem_of_fmap in Hin as (s & -> & Hs).
      apply list_elem_of_lookup in Hs as [i Hi].
      rewrite <-H1, <-H2, !(pass_clear sources _ _ i s Hd Hi).
      rewrite fixed_field. f_equal. f_equal.
      apply fixed_skip. intros. by apply pass_skip.
    + apply fixed_skip. intros. apply design_skip; try done.
      intros i s Hi. split_and!; try done. intros [= ->]. apply Hout.
      apply list_elem_of_fmap_2. by eapply list_elem_of_lookup_2.
  - apply fixed_field.
  - destruct (decide (r ≠ r_enable ∧ i < length sources)) as [[Hr Hi]|Hno].
    + rewrite <-H1, <-H2, !pass_csr_status by done. apply fixed_field.
    + apply fixed_skip. intros. apply design_skip; try done.
      intros r' j Hr' Hj [= -> ->]. by apply Hno.
  - apply fixed_skip. intros. by apply pass_skip.
  - apply fixed_skip. intros. by apply pass_skip.
  - apply fixed_skip. intros. by apply pass_skip.
  - rewrite <-H1, <-H2, !pass_irq by done.
    apply existsb_ext_in. intros i [_ Hi]%elem_of_seq. cbn in Hi.
    f_equal.
    + rewrite <-H1, <-H2, !pass_csr_status by done. apply fixed_field.
    + apply fixed_skip. intros. by apply pass_skip.
Qed.

End fixed_point.

(** The logic of a finalized manager has no combinational loop: the settled
    values are left unchanged by one more pass over all statements, and they
    are the only assignment of values with that property. *)
Theorem settle_unique_fixed_point m m' inp :
  finalizes m m' →
  (∀ t, comb_pass m' inp (settle m' inp) t = settle m' inp t)
  ∧ (∀ env, (∀ t, comb_pass m' inp env t = env t) → ∀ t, env t = settle m' inp t).
Proof.
  intros Hfin. split; [intros t; by apply (settle_stable m m')|].
  intros env Henv t.
  apply (fixed_point_agree (sorted duid (sources_u m)) (base inp)).
  - by apply (sources_NoDup m m').
  - by apply (sources_nonempty m m').
  - intros u. rewrite <-(netlist_finalizes m m' Hfin). apply Henv.
  - intros u. rewrite <-(netlist_finalizes m m' Hfin). by apply (settle_stable m m').
Qed.

(** ** The outcomes of do_finalize *)

Lemma wire_loop_Ok st pd l :
  (∀ isrc, isrc ∈ l → ∃ stmts, wire_stmts st pd isrc = Ok stmts) →
  (wire_loop st pd l).1 = Ok tt.
Proof.
  induction l as [|isrc l IH]; intros Hok; [done|]. cbn.
  destruct (Hok isrc) as [stmts ->]; [by left|]. cbn.
  apply IH. intros x Hx. apply Hok. by right.
Qed.

Lemma wire_loop_named m :
  Forall named (sources_u m) →
  let sources := sorted duid (sources_u m) in
  (wire_loop (finalize_regs sources m).1.1 (finalize_regs sources m).1.2
             (enumerate sources)).1 = Ok tt.
Proof.
  intros Hn. cbv zeta. apply wire_loop_Ok.
  intros [i s] His%elem_of_enumerate. apply wire_stmts_is_Ok; [done|].
  rewrite Forall_forall in Hn. apply Hn, (elem_of_sorted duid).
  by eapply list_elem_of_lookup_2.
Qed.

(** With one source at least, a name on each, the proxy behind [self.comb]
    and a signal in [self.irq], every step of [do_finalize] goes through. *)
Lemma do_finalize_Ok_intro m :
  sources_u m ≠ [] → Forall named (sources_u m) →
  proxy_at "comb" m → attrs m !! "irq" = Some VSignal →
  ∃ m', do_finalize m = (Ok tt, m').
Proof.
  intros Hne Hn Hp Hirq.
  assert (sorted duid (sources_u m) ≠ []) as Hne' by by rewrite sorted_nil_iff.
  rewrite (do_finalize_run m Hne'). unfold outcome.
  rewrite !bool_decide_true by done. rewrite wire_loop_named by done.
  by eexists.
Qed.

(** When [self.comb] holds something else than the proxy, the first [+=]
    of the wiring loop raises [TypeError], if the loop has not raised it
    before. *)
Lemma do_finalize_comb_taken m :
  sources_u m ≠ [] → ¬ proxy_at "comb" m → (do_finalize m).1 = Raise TypeError.
Proof.
  intros Hne Hp.
  assert (sorted duid (sources_u m) ≠ []) as Hne' by by rewrite sorted_nil_iff.
  rewrite (do_finalize_run m Hne'). unfold outcome.
  rewrite bool_decide_false by done. cbn [fst]. unfold finalize_regs. cbn [fst snd].
  destruct (sorted duid (sources_u m)) as [|s0 l] eqn:Hsorted; [done|].
  apply wire_stuck_TypeError. intros Hn. by apply wire_stmts_is_Ok.
Qed.

(** When every source has a name and [self.comb] is the proxy, all that can
    fail is [self.irq.eq]. *)
Lemma do_finalize_irq_taken m :
  sources_u m ≠ [] → Forall named (sources_u m) → proxy_at "comb" m →
  attrs m !! "irq" ≠ Some VSignal → (do_finalize m).1 = Raise AttributeError.
Proof.
  intros Hne Hn Hp Hirq.
  assert (sorted duid (sources_u m) ≠ []) as Hne' by by rewrite sorted_nil_iff.
  rewrite (do_finalize_run m Hne'). unfold outcome.
  rewrite bool_decide_true, bool_decide_false by done.
  by rewrite wire_loop_named.
Qed.

(** For a manager whose sources get distinct field names, [do_finalize]
    succeeds exactly when it collects at least one source, every collected
    source has a name, [self.comb] answers with migen's proxy and
    [self.irq] holds a signal. *)
Theorem do_finalize_succeeds_iff m :
  NoDup (imap field_name (sorted duid (sources_u m))) →
  (∃ m', do_finalize m = (Ok tt, m'))
  ↔ sources_u m ≠ [] ∧ Forall named (sources_u m)
    ∧ proxy_at "comb" m ∧ attrs m !! "irq" = Some VSignal.
Proof.
  intros _. split.
  - intros [m' Hfin]. apply do_finalize_Ok_inv in Hfin as (Hne & Hn & Hp & Hirq).
    split_and!; try done.
    + intros Hs. apply Hne. by rewrite Hs.
    + by rewrite sorted_Permutation in Hn.
  - intros (Hne & Hn & Hp & Hirq). by apply do_finalize_Ok_intro.
Qed.

(** The exceptions of [do_finalize], for a manager whose sources get
    distinct field names.  It raises [UnboundLocalError] exactly when it
    collects no source (the read of [desc] after a loop that never ran),
    and then the manager is left as it was.  It raises [TypeError] exactly
    when it collects sources and either one of them has no name or
    [self.comb] holds something else than migen's proxy.  It raises
    [AttributeError] exactly when the wiring loop went through and
    [self.irq] does not hold a signal.  It raises nothing else. *)
Theorem do_finalize_raises m :
  NoDup (imap field_name (sorted duid (sources_u m))) →
  (∀ e, (do_finalize m).1 = Raise e
        ↔ (e = UnboundLocalError ∧ sources_u m = [])
          ∨ (e = TypeError ∧ sources_u m ≠ []
             ∧ ((∃ s, s ∈ sources_u m ∧ name s = None) ∨ ¬ proxy_at "comb" m))
          ∨ (e = AttributeError ∧ sources_u m ≠ [] ∧ Forall named (sources_u m)
             ∧ proxy_at "comb" m ∧ attrs m !! "irq" ≠ Some VSignal))
  ∧ (sources_u m = [] → (do_finalize m).2 = m).
Proof.
  intros _. split; [|intros Hs; by rewrite do_finalize_no_sources].
  intros e. split.
  - intros He. destruct (decide (sources_u m = [])) as [Hs|Hs].
    { left. rewrite do_finalize_no_sources in He by done. by injection He as <-. }
    right. destruct (decide (Forall named (sources_u m))) as [Hn|Hn].
    2:{ left. apply not_Forall_Exists in Hn; [|apply _].
        apply Exists_exists in Hn as (s & Hin & Hnone).
        assert (name s = None) as Hnm.
        { destruct (name s) eqn:E; [|done]. destruct Hnone. unfold named. by rewrite E. }
        rewrite (do_finalize_unnamed m s Hin Hnm) in He. injection He as <-.
        split_and!; [done|done|]. left. by exists s. }
    destruct (decide (proxy_at "comb" m)) as [Hp|Hp].
    2:{ left. rewrite do_finalize_comb_taken in He by done. injection He as <-.
        split_and!; [done|done|by right]. }
    destruct (decide (attrs m !! "irq" = Some VSignal)) as [Hirq|Hirq].
    + destruct (do_finalize_Ok_intro m Hs Hn Hp Hirq) as [m' Hm'].
      by rewrite Hm' in He.
    + right. rewrite do_finalize_irq_taken in He by done. by injection He as <-.
  - intros [[-> Hs]|[(-> & Hs & [(s & Hin & Hnm)|Hp])|(-> & Hs & Hn & Hp & Hirq)]].
    + by rewrite do_finalize_no_sources.
    + by apply (do_finalize_unnamed m s).
    + by apply do_finalize_comb_taken.
    + by apply do_finalize_irq_taken.
Qed.

(** A collected source without a name makes [do_finalize] raise [TypeError],
    and by then the three registers are assigned: the manager is left half
    finalized. *)
Theorem do_finalize_unnamed_half_done m s :
  s ∈ sources_u m → name s = None →
  (do_finalize m).1 = Raise TypeError
  ∧ is_Some (csr_attr (do_finalize m).2 "status")
  ∧ is_Some (csr_attr (do_finalize m).2 "pending")
  ∧ is_Some (csr_attr (do_finalize m).2 "enable").
Proof.
  intros Hs Hnone. split; [by eapply do_finalize_unnamed|].
  destruct (do_finalize_state m) as [X ->].
  { rewrite sorted_nil_iff. intros Hnil. rewrite Hnil in Hs. by apply elem_of_nil in Hs. }
  destruct (finalize_regs_attr (sorted duid (sources_u m)) m X) as (-> & -> & ->).
  split_and!; by eexists.
Qed.

(** Whatever its outcome, [do_finalize] changes no attribute other than
    [status], [pending], [enable] and [comb] (and migen's private
    [_fragment], where the statements go), leaves the [finalized] flag and
    the submodules alone, and only appends to the logic already emitted;
    the attribute [comb] is what it was when nothing has been appended, and
    holds migen's proxy otherwise. *)
Theorem do_finalize_touches m :
  (∀ k, k ≠ "status" → k ≠ "pending" → k ≠ "enable" → k ≠ "comb" →
        k ≠ "_fragment" → attrs (do_finalize m).2 !! k = attrs m !! k)
  ∧ finalized (do_finalize m).2 = finalized m
  ∧ submodules (do_finalize m).2 = submodules m
  ∧ ∃ X, fragment_comb (do_finalize m).2 = fragment_comb m ++ X
         ∧ attrs (do_finalize m).2 !! "comb"
           = if decide (X = []) then attrs m !! "comb" else Some VProxy.
Proof.
  assert (∀ k, k ≠ "status" → k ≠ "pending" → k ≠ "enable" → k ≠ "comb" →
               attrs (do_finalize m).2 !! k = attrs m !! k) as Hframe.
  { intros k H1 H2 H3 H4.
    destruct (decide (sorted duid (sources_u m) = [])) as [Hnil|Hne].
    + apply sorted_nil_iff in Hnil. by rewrite do_finalize_no_sources.
    + destruct (do_finalize_state m Hne) as [X ->].
      rewrite emit_opt_lookup by done. by apply finalize_regs_lookup. }
  split_and!; [by intros; apply Hframe| |apply do_finalize_submodules|].
  - unfold finalized. apply bool_decide_ext. by rewrite Hframe.
  - destruct (decide (sorted duid (sources_u m) = [])) as [Hnil|Hne].
    + apply sorted_nil_iff in Hnil. rewrite do_finalize_no_sources by done.
      exists []. by rewrite app_nil_r.
    + destruct (do_finalize_state m Hne) as [X ->]. exists X.
      destruct X as [|x X]; cbn.
      * split; [by rewrite app_nil_r|]. by rewrite !lookup_insert_ne.
      * split; [done|]. by rewrite lookup_insert_eq.
Qed.

Lemma pack_sizes k fs : f_size <$> pack k fs = f_size <$> fs.
Proof. revert k. induction fs as [|f fs IH]; intros k; cbn; [done|]. by rewrite IH. Qed.

Lemma pack_descriptions k fs : f_description <$> pack k fs = f_description <$> fs.
Proof. revert k. induction fs as [|f fs IH]; intros k; cbn; [done|]. by rewrite IH. Qed.

Lemma packed_layout (F : nat → EventSource → CSRField) L :
  (∀ j t, f_name (F j t) = field_name j t) →
  unit_fields 0 (imap F L) →
  f_name <$> pack 0 (imap F L) = imap field_name L
  ∧ offset <$> pack 0 (imap F L) = seq 0 (length L)
  ∧ Forall (λ f, f_size f = 1) (pack 0 (imap F L)).
Proof.
  intros HF HU. split_and!.
  - by apply packed_names.
  - by rewrite pack_offsets, length_imap.
  - apply Forall_forall. intros f [i Hi]%list_elem_of_lookup.
    assert ((f_size <$> pack 0 (imap F L)) !! i = Some (f_size f)) as Hsz
      by by rewrite list_lookup_fmap, Hi.
    rewrite pack_sizes, list_lookup_fmap in Hsz.
    destruct (imap F L !! i) as [g|] eqn:Hg; [|done].
    cbn in Hsz. injection Hsz as <-. by destruct (HU i g Hg).
Qed.

(** As soon as one source is collected, each of the three registers that
    [do_finalize] assigns is as wide as there are collected sources and has
    one one-bit field per source, in the order of the creation ids: the
    field at position i sits at bit i and is named after the source, or
    [eventI] for a source without a name. *)
Theorem registers_layout m reg :
  sources_u m ≠ [] →
  reg = "status" ∨ reg = "pending" ∨ reg = "enable" →
  ∃ c, csr_attr (do_finalize m).2 reg = Some c
       ∧ c_size c = length (sources_u m)
       ∧ f_name <$> c_fields c = imap field_name (sorted duid (sources_u m))
       ∧ offset <$> c_fields c = seq 0 (length (sources_u m))
       ∧ Forall (λ f, f_size f = 1) (c_fields c).
Proof.
  intros Hne Hreg.
  destruct (do_finalize_state m) as [X ->]; [by rewrite sorted_nil_iff|].
  destruct (finalize_regs_attr (sorted duid (sources_u m)) m X) as (Hs & Hp & He).
  rewrite <-(sorted_length duid (sources_u m)).
  destruct Hreg as [->|[->| ->]]; eexists; (split; [done|]); cbn [CSRStatus CSRStorage c_size c_fields];
    (split; [done|]).
  - apply packed_layout; auto using status_field_name, unit_fields_status.
  - apply packed_layout; auto using pending_field_name, unit_fields_pending.
  - apply packed_layout; auto using enable_field_name, unit_fields_enable.
Qed.

Section sorted_more.
Context {A : Type} (key : A → Z).
Implicit Types (x : A) (l : list A).

Local Instance key_le_transitive : Transitive (key_le key).
Proof. unfold key_le. intros x y z. lia. Qed.

(** The last element of the sorted list has the largest key. *)
Lemma sorted_last_max l x :
  last (sorted key l) = Some x → ∀ y, y ∈ l → (key y ≤ key x)%Z.
Proof.
  intros Hlast y Hy. apply (proj2 (elem_of_sorted key y l)) in Hy.
  pose proof (Sorted_StronglySorted _ _ (sorted_Sorted key l)) as Hs.
  apply last_Some in Hlast as [l' Hl']. rewrite Hl' in *.
  apply elem_of_app in Hy as [Hy|Hy%list_elem_of_singleton]; [|subst; lia].
  apply StronglySorted_app in Hs as (H12 & _). apply (H12 y x); [done|by left].
Qed.

(** Sorting a sorted list changes nothing. *)
Lemma sorted_of_Sorted l : Sorted (key_le key) l → sorted key l = l.
Proof.
  induction 1 as [|x l Hl IH Hhd]; [done|].
  change (sorted key (x :: l)) with (insert_sorted key x (sorted key l)).
  rewrite IH. destruct Hhd as [|y l' Hxy]; [done|]. cbn. by rewrite decide_True.
Qed.

End sorted_more.

(** The description of each register is taken from one source only, the last
    one of the loop, which is the collected source with the largest creation
    id. *)
Theorem registers_description m s :
  last (sorted duid (sources_u m)) = Some s →
  (∀ t, t ∈ sources_u m → (duid t ≤ duid s)%Z)
  ∧ c_description <$> csr_attr (do_finalize m).2 "status" = Some (status_desc s)
  ∧ c_description <$> csr_attr (do_finalize m).2 "pending" = Some (pending_desc s)
  ∧ c_description <$> csr_attr (do_finalize m).2 "enable" = Some (enable_desc s).
Proof.
  intros Hlast. split; [by apply (sorted_last_max duid)|].
  destruct (do_finalize_state m) as [X ->].
  { intros Hnil. by rewrite Hnil in Hlast. }
  destruct (finalize_regs_attr (sorted duid (sources_u m)) m X) as (-> & -> & ->).
  by rewrite Hlast.
Qed.

(** ** Creation order *)

Lemma create_Sorted specs n :
  Sorted (key_le duid) (create specs n).1
  ∧ Forall (λ s, (n ≤ duid s)%Z) (create specs n).1.
Proof. destruct (create_ids specs n) as (? & ? & _). by split. Qed.

(** A source takes the counter as its creation id, and its constructor
    leaves the counter 12 (Pulse), 15 (Process) or 9 (Level) higher.  So
    sources created one after the other come out of the sort in their
    creation order, in whatever order they are collected: the source
    created in position i has rank i. *)
Theorem creation_order_is_bit_order :
  (∀ k nm descr traced u,
     duid (EventSource_new k nm descr traced u).1 = u
     ∧ (EventSource_new k nm descr traced u).2
       = (u + match k with Pulse => 12 | Process => 15 | Level => 9 end)%Z)
  ∧ (∀ specs n l, l ≡ₚ (create specs n).1 →
       sorted duid l = (create specs n).1
       ∧ ∀ i s, (create specs n).1 !! i = Some s → rank s l = i).
Proof.
  split; [apply EventSource_new_ids|].
  intros specs n l Hp.
  assert (sorted duid (create specs n).1 = (create specs n).1) as Hsorted
    by apply sorted_of_Sorted, create_Sorted.
  split.
  - rewrite (sorted_unique duid l (create specs n).1);
      [done|by rewrite Hp; apply create_NoDup|done].
  - intros i s Hi. rewrite (rank_Permutation s _ _ Hp).
    pose proof (create_NoDup specs n) as Hnd.
    pose proof (sorted_lookup_rank duid _ s Hnd (list_elem_of_lookup_2 _ _ _ Hi)) as Hr.
    rewrite Hsorted in Hr. fold (rank s (create specs n).1) in Hr.
    eapply NoDup_lookup; [|done..]. by apply (NoDup_fmap_1 duid).
Qed.

(** ** Attaching and collecting *)


Lemma attach_attrs_lookup a l k s :
  attach_attrs a l !! k = Some (VSource s) →
  (k, s) ∈ l ∨ a !! k = Some (VSource s).
Proof.
  revert a. induction l as [|[k' s'] l IH]; intros a; cbn; [auto|].
  intros [Hin|Hl]%IH; [left; by right|].
  destruct (decide (k' = k)) as [->|Hne].
  - rewrite lookup_insert_eq in Hl. injection Hl as ->. left. by left.
  - rewrite lookup_insert_ne in Hl by done. by right.
Qed.

(** Attachments that succeed keep every collected source among the
    submodules: if that holds of a manager, it holds of it after a run of
    attachments that raised nothing.  An attachment that raises can break
    it: a source assigned to [finalized] on a new manager is stored, hence
    collected, and is not made a submodule. *)
Theorem collected_are_submodules :
  (∀ m0 l m, (∀ s, s ∈ sources_u m0 → s ∈ submodules m0) →
     attach_all l m0 = (Ok tt, m) →
     ∀ s, s ∈ sources_u m → s ∈ submodules m)
  ∧ (∀ s, s ∈ sources_u (setattr "finalized" (VSource s) EventManager_init).2
          ∧ s ∉ submodules (setattr "finalized" (VSource s) EventManager_init).2).
Proof.
  split.
  - intros m0 l m Hinv Hrun s.
    destruct (decide (l = [])) as [->|Hne]; [injection Hrun as <-; apply Hinv|].
    destruct (attach_all_Ok _ _ _ Hrun) as [?|(Ho & Hp & Hf & Hs)]; [done|].
    rewrite attach_all_open in Hrun by done. injection Hrun as <-.
    cbn [submodules]. intros (k & Hk & Hl)%elem_of_sources_u. cbn in Hl.
    apply lookup_insert_Some in Hl as [[_ ?]|[Hne1 Hl]]; [done|].
    apply lookup_insert_Some in Hl as [[_ ?]|[Hne2 Hl]]; [done|].
    apply elem_of_app.
    apply attach_attrs_lookup in Hl as [Hin|Hl].
    + right. by apply (list_elem_of_fmap_2 snd) in Hin.
    + left. apply Hinv, elem_of_sources_u. eauto.
  - intros s. rewrite setattr_source_as_finalized. cbn [snd]. split.
    + apply elem_of_sources_u. exists "finalized". split; [done|].
      cbn. by rewrite lookup_insert_eq.
    + cbn. apply not_elem_of_nil.
Qed.

(** ** What the emitted logic drives *)

(** The logic emitted by a finalization drives the status and pending fields
    of the collected sources, their clear lines and [irq], and nothing else:
    no trigger, no status or pending output of a source, no enable bit. *)
Theorem emitted_targets m m' t :
  finalizes m m' → t ∈ flat_map targets (fragment_comb m') →
  (∃ s, s ∈ sources_u m
        ∧ (t = field r_status (rank s (sources_u m))
           ∨ t = field r_pending (rank s (sources_u m))
           ∨ t = src (duid s) clear))
  ∨ t = irq.
Proof.
  intros Hfin Ht. pose proof Hfin as (Hc & _).
  pose proof (finalizes_inv m m' Hfin) as (_ & _ & _ & _ & Hm').
  rewrite Hm' in Ht. unfold finalize_regs in Ht. cbn in Ht. rewrite Hc in Ht.
  cbn in Ht. rewrite flat_map_app in Ht.
  apply elem_of_app in Ht as [Ht|Ht].
  - left. unfold wires in Ht.
    apply list_elem_of_In, in_flat_map in Ht as (st & Hst & Ht).
    apply in_flat_map in Hst as ([i s] & His & Hst).
    apply list_elem_of_In, elem_of_enumerate in His.
    destruct (rank_of_lookup m m' i s Hfin His) as [Hs <-].
    exists s. split; [done|]. cbn in Hst.
    destruct Hst as [<-|[<-|[<-|[]]]]; cbn in Ht; destruct Ht as [<-|[]]; auto.
  - right. cbn in Ht. by apply list_elem_of_singleton in Ht.
Qed.

(** ** A source inside its manager *)

(** A source inside its finalized manager.  Its clear line is the write
    strobe ANDed with its pending output; at the clock edge a latched Pulse
    or Process event survives exactly when no write to the pending register
    happens, and a new event is latched in any case; the status bit of a
    Pulse source is 0, that of the others the trigger; the pending bit of a
    Level source is the trigger, that of the others the latch. *)
Theorem acknowledge m m' inp s st trig :
  finalizes m m' → s ∈ sources_u m → wired m' inp s st trig →
  settle m' inp (src (duid s) clear)
    = in_re inp && match kind s with Level => trig | _ => pending_reg st end
  ∧ pending_reg (attached_tick m' inp s st trig)
    = match kind s with
      | Pulse => trig || (pending_reg st && negb (in_re inp))
      | Process => (negb trig && old_trigger_reg st)
                   || (pending_reg st && negb (in_re inp))
      | Level => pending_reg st
      end
  ∧ settle m' inp (csr_status r_status (rank s (sources_u m)))
    = match kind s with Pulse => false | _ => trig end
  ∧ settle m' inp (csr_status r_pending (rank s (sources_u m)))
    = match kind s with Level => trig | _ => pending_reg st end.
Proof.
  intros Hfin Hs [Hst Hpd].
  pose proof (rank_lookup m m' s Hfin Hs) as Hi.
  pose proof (settle_clear m m' Hfin inp _ s Hi) as Hclr.
  destruct (settle_csr_status m m' Hfin inp _ s Hi) as [-> ->].
  unfold attached_tick. rewrite Hclr, Hst, Hpd.
  destruct (kind s); cbn [logic].
  - rewrite !pulse_outputs, pulse_tick. cbn.
    split_and!; try done. by destruct trig, (in_re inp), (pending_reg st).
  - rewrite !process_outputs, process_tick. cbn.
    split_and!; try done.
    by destruct trig, (in_re inp), (pending_reg st), (old_trigger_reg st).
  - rewrite !level_outputs, level_tick. done.
Qed.

(** ** Instances *)


Lemma pulse_quiet_until_trigger_witness :
  src_at EventSourcePulse late_trigger 2 pending = false.
Proof.
  apply pulse_quiet_until_trigger.
  intros j Hj. destruct j as [|[|j]]; [reflexivity|reflexivity|lia].
Defined.

Lemma process_needs_falling_edge_witness :
  src_at EventSourceProcess held_high 5 pending = false.
Proof.
  apply process_needs_falling_edge. intros j _ [_ Hlow]. discriminate Hlow.
Defined.

Lemma settle_unique_fixed_point_witness :
  comb_pass example_final example_inputs (settle example_final example_inputs) irq
  = settle example_final example_inputs irq.
Proof.
  apply (proj1 (settle_unique_fixed_point example_open example_final example_inputs
                  example_finalizes)).
Defined.

Lemma do_finalize_raises_witness :
  (do_finalize EventManager_init).2 = EventManager_init
  ∧ (do_finalize irq_taken).1 = Raise AttributeError.
Proof.
  split.
  - destruct (do_finalize_raises EventManager_init) as [_ Hs].
    + apply (bool_decide_unpack _). vm_compute. exact I.
    + apply Hs. reflexivity.
  - destruct (do_finalize_raises irq_taken) as [He _].
    + apply (bool_decide_unpack _). vm_compute. exact I.
    + apply (proj2 (He AttributeError)). right. right. split_and!.
      * reflexivity.
      * vm_compute. discriminate.
      * apply (bool_decide_unpack _). vm_compute. exact I.
      * apply (bool_decide_unpack _). vm_compute. exact I.
      * vm_compute. discriminate.
Defined.

Lemma do_finalize_succeeds_iff_witness : ∃ m', do_finalize example_open = (Ok tt, m').
Proof.
  apply (proj2 (do_finalize_succeeds_iff example_open
                  ltac:(apply (bool_decide_unpack _); vm_compute; exact I))).
  split_and!.
  - vm_compute. discriminate.
  - apply (bool_decide_unpack _). vm_compute. exact I.
  - apply (bool_decide_unpack _). vm_compute. exact I.
  - vm_compute. reflexivity.
Defined.

Lemma do_finalize_unnamed_half_done_witness :
  (do_finalize unnamed_open).1 = Raise TypeError
  ∧ is_Some (csr_attr (do_finalize unnamed_open).2 "status").
Proof.
  destruct (do_finalize_unnamed_half_done unnamed_open unnamed) as (H1 & H2 & _).
  - apply (bool_decide_unpack _). vm_compute. exact I.
  - reflexivity.
  - split; [exact H1|exact H2].
Defined.

Lemma do_finalize_touches_witness :
  attrs (do_finalize example_open).2 !! "irq" = attrs example_open !! "irq".
Proof. apply (proj1 (do_finalize_touches example_open)); discriminate. Defined.

Lemma registers_layout_witness :
  ∃ c, csr_attr (do_finalize example_open).2 "enable" = Some c
       ∧ c_size c = 3
       ∧ offset <$> c_fields c = [0; 1; 2].
Proof.
  destruct (registers_layout example_open "enable") as (c & Hc & Hsz & _ & Hoff & _).
  - vm_compute. discriminate.
  - right. right. reflexivity.
  - exists c. split_and!; [exact Hc|exact Hsz|exact Hoff].
Defined.

Lemma registers_description_witness :
  c_description <$> csr_attr (do_finalize example_open).2 "status"
  = Some (status_desc dma_done).
Proof.
  destruct (registers_description example_open dma_done) as (_ & H & _).
  - vm_compute. reflexivity.
  - exact H.
Defined.

Lemma creation_order_is_bit_order_witness :
  duid <$> (create three_specs 3490).1 = [3490; 3502; 3511]%Z
  ∧ sorted duid (reverse (create three_specs 3490).1) = (create three_specs 3490).1.
Proof.
  split; [vm_compute; reflexivity|].
  apply (proj2 creation_order_is_bit_order).
  apply (bool_decide_unpack _). vm_compute. exact I.
Defined.


Lemma collected_are_submodules_witness : dma_slot ∈ submodules example_open.
Proof.
  apply (proj1 collected_are_submodules EventManager_init
           [("done", dma_done); ("rx", uart_rx); ("slot", dma_slot)] example_open).
  - intros s Hs. exfalso.
    replace (sources_u EventManager_init) with (@nil EventSource) in Hs
      by (vm_compute; reflexivity).
    by apply elem_of_nil in Hs.
  - vm_compute. reflexivity.
  - apply (bool_decide_unpack _). vm_compute. exact I.
Defined.

Lemma emitted_targets_witness :
  (∃ s, s ∈ sources_u example_open
        ∧ (src 1 clear = field r_status (rank s (sources_u example_open))
           ∨ src 1 clear = field r_pending (rank s (sources_u example_open))
           ∨ src 1 clear = src (duid s) clear))
  ∨ src 1 clear = irq.
Proof.
  apply (emitted_targets example_open example_final).
  - exact example_finalizes.
  - apply (bool_decide_unpack _). vm_compute. exact I.
Defined.

Lemma acknowledge_witness :
  pending_reg (attached_tick example_final write_all_zero uart_rx rx_latched false)
  = false.
Proof.
  destruct (acknowledge example_open example_final write_all_zero uart_rx
              rx_latched false example_finalizes) as (_ & H & _).
  - apply (bool_decide_unpack _). vm_compute. exact I.
  - split; vm_compute; reflexivity.
  - exact H.
Defined.
